(** * rabbit-validator: the diff engine and the deployment planner

    A shallow embedding of [src/diff.js] and [src/deploy.js], and of the
    commands of [cli.js] that call them.  Broker
    definitions are JSON documents; a JavaScript object is a finite map from
    property names to values, so that Node's [isDeepStrictEqual] on parsed
    JSON is equality of the embedded values. *)

From Stdlib Require Import Ascii.
From stdpp Require Import base option list gmap strings pretty.

Set Warnings "-register-all".

(** ** JavaScript values *)

(** A parsed JSON value.  Numbers of a definitions file are integers (TTLs,
    lengths, limits).  An object is a [gmap]: property order is irrelevant to
    every operation of the two files below. *)
Inductive value : Type :=
  | VNull
  | VBool (b : bool)
  | VNum (n : Z)
  | VStr (s : string)
  | VArr (xs : list value)
  | VObj (fs : gmap string value).

Global Instance value_eq_dec : EqDecision value.
Proof.
  refine (fix go (a b : value) {struct a} : Decision (a = b) :=
    let _ : EqDecision value := @go in
    match a, b with
    | VNull, VNull => left _
    | VBool x, VBool y => cast_if (decide (x = y))
    | VNum x, VNum y => cast_if (decide (x = y))
    | VStr x, VStr y => cast_if (decide (x = y))
    | VArr x, VArr y => cast_if (decide (x = y))
    | VObj x, VObj y => cast_if (decide (x = y))
    | _, _ => right _
    end); congruence.
Defined.

(** [r.k]: a property read; [None] is [undefined].  Only own properties of
    objects are modelled. *)
Definition get (r : value) (k : string) : option value :=
  match r with
  | VObj fs => fs !! k
  | _ => None
  end.

(** [a === b].  Primitives compare by value.  Definitions are parsed JSON,
    in which no array or object is shared between two properties, so two
    such values read from two properties are never the same reference. *)
Definition strict_eq (a b : option value) : bool :=
  match a, b with
  | None, None => true
  | Some VNull, Some VNull => true
  | Some (VBool x), Some (VBool y) => bool_decide (x = y)
  | Some (VNum x), Some (VNum y) => bool_decide (x = y)
  | Some (VStr x), Some (VStr y) => bool_decide (x = y)
  | _, _ => false
  end.

(** Truthiness of a value, as tested by [||], [&&], [!] and [filter]. *)
Definition truthy (v : option value) : bool :=
  match v with
  | None | Some VNull => false
  | Some (VBool b) => b
  | Some (VNum n) => bool_decide (n ≠ 0%Z)
  | Some (VStr s) => bool_decide (s ≠ "")
  | Some (VArr _) | Some (VObj _) => true
  end.

(** [util.isDeepStrictEqual] on JSON data. *)
Definition isDeepStrictEqual (a b : value) : bool := bool_decide (a = b).

(** An object literal. *)
Definition obj (fields : list (string * value)) : value :=
  VObj (list_to_map fields).

(** An object literal whose [undefined] properties are left out. *)
Definition record (fields : list (string * option value)) : value :=
  obj (omap (λ kv, pair kv.1 <$> kv.2) fields).

(** ** Resource types, errors *)

Inductive rtype : Type :=
  | Vhosts | Queues | Exchanges | Bindings | Users | Permissions
  | TopicPermissions.

Global Instance rtype_eq_dec : EqDecision rtype.
Proof. solve_decision. Defined.

(** The keys of [makeChangeMap], in their order. *)
Definition all_types : list rtype :=
  [Vhosts; Queues; Exchanges; Bindings; Users; Permissions; TopicPermissions].

Inductive opkind : Type :=
  | Added | Deleted | Changed | ImplicitlyAffected.

Global Instance opkind_eq_dec : EqDecision opkind.
Proof. solve_decision. Defined.

Inductive error : Type :=
  | ConstructionError (t : rtype) (record : value)
  | OptionConflict
  | InvalidOperation (op : opkind) (t : rtype)
  | TypeError
  | Rejected (reason : string).

Global Instance error_eq_dec : EqDecision error.
Proof. solve_decision. Defined.

Inductive outcome (A : Type) : Type :=
  | Ok (a : A)
  | Throw (e : error).
Global Arguments Ok {A} a.
Global Arguments Throw {A} e.

Global Instance outcome_eq_dec {A} `{EqDecision A} : EqDecision (outcome A).
Proof. solve_decision. Defined.

Definition obind {A B} (m : outcome A) (k : A → outcome B) : outcome B :=
  match m with
  | Ok a => k a
  | Throw e => Throw e
  end.

Declare Scope outcome_scope.
Delimit Scope outcome_scope with outcome.
Notation "'try' x ← m ; k" := (obind m (λ x, k))
  (at level 10, x name, m at level 100, k at level 200) : outcome_scope.

(** ** The content-addressed set *)

(** The identity of a record: the values of its identity fields. *)
Definition key : Type := list (option value).

(** Modelled from the spec: [src/Index.js] is not among the sources.  The
    identity key of each resource type (the table of the data model). *)
Definition identity_fields (t : rtype) : list string :=
  match t with
  | Vhosts | Users => ["name"]
  | Exchanges | Queues => ["vhost"; "name"]
  | Permissions | TopicPermissions => ["vhost"; "user"]
  | Bindings =>
      ["vhost"; "source"; "destination"; "destination_type"; "routing_key";
       "arguments"]
  end.

Definition identity (t : rtype) (r : value) : key :=
  get r <$> identity_fields t.

(** A record with too few fields to compute its identity is malformed. *)
Definition has_identity (t : rtype) (r : value) : bool :=
  forallb (λ f, bool_decide (is_Some (get r f))) (identity_fields t).

Module HashSet.

(** Modelled from the spec: [src/HashSet.js] is not among the sources.  A
    mutable collection keyed by identity with insert, lookup by identity,
    delete by identity, iteration over the remaining members and size.  A
    set holds the records of one resource type, keyed by the identity of
    that type, and is kept as the sequence of its members in insertion
    order, which is the iteration order of a JavaScript [Map]. *)
Record t : Type := make {
  kind : rtype;
  members : list value;
}.

Global Instance eq_dec : EqDecision t.
Proof. solve_decision. Defined.

Definition hash (s : t) (r : value) : key := identity (kind s) r.

Definition same (s : t) (item r : value) : bool :=
  bool_decide (hash s r = hash s item).

Definition get (s : t) (item : value) : option value :=
  List.find (same s item) (members s).

Definition delete (s : t) (item : value) : t :=
  make (kind s) (List.filter (λ r, negb (same s item r)) (members s)).

(** Insert; a record of the same identity is overwritten in place (last
    write wins). *)
Fixpoint put (h : value → key) (item : value) (l : list value) : list value :=
  match l with
  | [] => [item]
  | r :: l' =>
      if bool_decide (h r = h item) then item :: l' else r :: put h item l'
  end.

Definition add (s : t) (item : value) : t :=
  make (kind s) (put (hash s) item (members s)).

Definition values (s : t) : list value := members s.

Definition size (s : t) : nat := length (members s).

Definition empty (ty : rtype) : t := make ty [].

(** Identities are unique within a set. *)
Definition wf (s : t) : Prop := NoDup (hash s <$> members s).

End HashSet.

(** ** The identity index *)

Record definitions : Type := Definitions {
  def_vhosts : list value;
  def_queues : list value;
  def_exchanges : list value;
  def_bindings : list value;
  def_users : list value;
  def_permissions : list value;
  def_topic_permissions : list value;
}.

Global Instance definitions_eq_dec : EqDecision definitions.
Proof. solve_decision. Defined.

Module Index.

(** Modelled from the spec: one typed collection per resource type. *)
Record t : Type := make {
  vhosts : HashSet.t;
  queues : HashSet.t;
  exchanges : HashSet.t;
  bindings : HashSet.t;
  users : HashSet.t;
  permissions : HashSet.t;
  topic_permissions : HashSet.t;
}.

Global Instance eq_dec : EqDecision t.
Proof. solve_decision. Defined.

Definition collection (idx : t) (ty : rtype) : HashSet.t :=
  match ty with
  | Vhosts => vhosts idx
  | Queues => queues idx
  | Exchanges => exchanges idx
  | Bindings => bindings idx
  | Users => users idx
  | Permissions => permissions idx
  | TopicPermissions => topic_permissions idx
  end.

Definition section (d : definitions) (ty : rtype) : list value :=
  match ty with
  | Vhosts => def_vhosts d
  | Queues => def_queues d
  | Exchanges => def_exchanges d
  | Bindings => def_bindings d
  | Users => def_users d
  | Permissions => def_permissions d
  | TopicPermissions => def_topic_permissions d
  end.

Definition ignored (ignoreIndex : option t) (ty : rtype) (r : value) : bool :=
  match ignoreIndex with
  | Some ig => bool_decide (is_Some (HashSet.get (collection ig ty) r))
  | None => false
  end.

(** Modelled from the spec: every record of a sequence is inserted under
    its identity; a record matching an entry of the ignore index is
    skipped; a record without its identity fields is a fatal construction
    error. *)
Fixpoint insertAll (ignoreIndex : option t) (ty : rtype) (records : list value)
    (s : HashSet.t) : outcome HashSet.t :=
  match records with
  | [] => Ok s
  | r :: rest =>
      if has_identity ty r then
        insertAll ignoreIndex ty rest
          (if ignored ignoreIndex ty r then s else HashSet.add s r)
      else Throw (ConstructionError ty r)
  end.

Definition build (ignoreIndex : option t) (d : definitions) (ty : rtype)
    : outcome HashSet.t :=
  insertAll ignoreIndex ty (section d ty) (HashSet.empty ty).

Definition fromDefinitions (d : definitions) (includeImplicit : bool)
    (ignoreIndex : option t) : outcome t :=
  (try vh ← build ignoreIndex d Vhosts;
   try qu ← build ignoreIndex d Queues;
   try ex ← build ignoreIndex d Exchanges;
   try bi ← build ignoreIndex d Bindings;
   try us ← build ignoreIndex d Users;
   try pe ← build ignoreIndex d Permissions;
   try tp ← build ignoreIndex d TopicPermissions;
   Ok (make vh qu ex bi us pe tp))%outcome.

Definition update (ty : rtype) (f : HashSet.t → HashSet.t) (idx : t) : t :=
  match ty with
  | Vhosts => make (f (vhosts idx)) (queues idx) (exchanges idx) (bindings idx)
                   (users idx) (permissions idx) (topic_permissions idx)
  | Queues => make (vhosts idx) (f (queues idx)) (exchanges idx) (bindings idx)
                   (users idx) (permissions idx) (topic_permissions idx)
  | Exchanges => make (vhosts idx) (queues idx) (f (exchanges idx)) (bindings idx)
                      (users idx) (permissions idx) (topic_permissions idx)
  | Bindings => make (vhosts idx) (queues idx) (exchanges idx) (f (bindings idx))
                     (users idx) (permissions idx) (topic_permissions idx)
  | Users => make (vhosts idx) (queues idx) (exchanges idx) (bindings idx)
                  (f (users idx)) (permissions idx) (topic_permissions idx)
  | Permissions => make (vhosts idx) (queues idx) (exchanges idx) (bindings idx)
                        (users idx) (f (permissions idx)) (topic_permissions idx)
  | TopicPermissions => make (vhosts idx) (queues idx) (exchanges idx)
                             (bindings idx) (users idx) (permissions idx)
                             (f (topic_permissions idx))
  end.

Definition blank : t :=
  make (HashSet.empty Vhosts) (HashSet.empty Queues)
       (HashSet.empty Exchanges) (HashSet.empty Bindings)
       (HashSet.empty Users) (HashSet.empty Permissions)
       (HashSet.empty TopicPermissions).

(** Modelled from the spec: an index built from a flat list of
    [{vhost, exchange?, queue?}] selectors.  A selector naming an exchange
    or a queue stands for that resource, a bare one for the vhost.  The
    spec says no more; every result below holds for any ignore index. *)
Definition selectorEntry (ig : t) (sel : value) : t :=
  let named field :=
    record [("vhost", get sel "vhost"); ("name", get sel field)] in
  let ig1 :=
    if truthy (get sel "exchange")
    then update Exchanges (λ s, HashSet.add s (named "exchange")) ig else ig in
  let ig2 :=
    if truthy (get sel "queue")
    then update Queues (λ s, HashSet.add s (named "queue")) ig1 else ig1 in
  if truthy (get sel "exchange") || truthy (get sel "queue") then ig2
  else update Vhosts (λ s, HashSet.add s (record [("name", get sel "vhost")])) ig.

Definition fromIgnoreList (ignoreList : list value) : t :=
  foldl selectorEntry blank ignoreList.

End Index.

(** ** The diff engine ([src/diff.js]) *)

Record change : Type := Change {
  before : value;
  after : value;
}.

Global Instance change_eq_dec : EqDecision change.
Proof. solve_decision. Defined.

(** The result of diffing one resource type. *)
Module MapDiff.
Record t : Type := make {
  added : list value;
  deleted : list value;
  changed : list change;
  unaffected : list value;
}.
Global Instance eq_dec : EqDecision t.
Proof. solve_decision. Defined.
Definition empty : t := make [] [] [] [].
End MapDiff.

(** The state of the loops of [diffMapsConsuming]: the two sets being
    drained and the four sequences being filled. *)
Definition loopState : Type := HashSet.t * HashSet.t * MapDiff.t.

(** The body of the loop over [after.values()]. *)
Definition classify (st : loopState) (afterItem : value) : loopState :=
  let '(before, after, acc) := st in
  let beforeItem := HashSet.get before afterItem in
  let after := HashSet.delete after afterItem in
  let before := HashSet.delete before afterItem in
  match beforeItem with
  | None =>
      (before, after,
       MapDiff.make (MapDiff.added acc ++ [afterItem]) (MapDiff.deleted acc)
                    (MapDiff.changed acc) (MapDiff.unaffected acc))
  | Some beforeItem =>
      if negb (isDeepStrictEqual beforeItem afterItem) then
        (before, after,
         MapDiff.make (MapDiff.added acc) (MapDiff.deleted acc)
                      (MapDiff.changed acc ++ [Change beforeItem afterItem])
                      (MapDiff.unaffected acc))
      else
        (before, after,
         MapDiff.make (MapDiff.added acc) (MapDiff.deleted acc)
                      (MapDiff.changed acc) (MapDiff.unaffected acc ++ [afterItem]))
  end.

(** The body of the loop over [before.values()]. *)
Definition drain (st : loopState) (beforeItem : value) : loopState :=
  let '(before, after, acc) := st in
  (HashSet.delete before beforeItem, after,
   MapDiff.make (MapDiff.added acc) (MapDiff.deleted acc ++ [beforeItem])
                (MapDiff.changed acc) (MapDiff.unaffected acc)).

(** [diffMapsConsuming].  Each loop deletes only the member it is visiting,
    so iterating the live set visits the members present at the start of the
    loop.  The drained sets are returned with the result. *)
Definition diffMapsConsuming (before after : HashSet.t) : loopState :=
  let st := foldl classify (before, after, MapDiff.empty) (HashSet.values after) in
  foldl drain st (HashSet.values st.1.1).

(** [makeChangeMap]: one sequence per resource type. *)
Record changeMap (A : Type) : Type := ChangeMap {
  vhosts : list A;
  queues : list A;
  exchanges : list A;
  bindings : list A;
  users : list A;
  permissions : list A;
  topic_permissions : list A;
}.
Global Arguments ChangeMap {A} _ _ _ _ _ _ _.
Global Arguments vhosts {A} _.
Global Arguments queues {A} _.
Global Arguments exchanges {A} _.
Global Arguments bindings {A} _.
Global Arguments users {A} _.
Global Arguments permissions {A} _.
Global Arguments topic_permissions {A} _.

Global Instance changeMap_eq_dec {A} `{EqDecision A} : EqDecision (changeMap A).
Proof. solve_decision. Defined.

Definition makeChangeMap {A} : changeMap A := ChangeMap [] [] [] [] [] [] [].

(** [m[key]]. *)
Definition at_key {A} (m : changeMap A) (key : rtype) : list A :=
  match key with
  | Vhosts => vhosts m
  | Queues => queues m
  | Exchanges => exchanges m
  | Bindings => bindings m
  | Users => users m
  | Permissions => permissions m
  | TopicPermissions => topic_permissions m
  end.

(** [m[key].push(...items)]. *)
Definition push {A} (m : changeMap A) (key : rtype) (items : list A) : changeMap A :=
  match key with
  | Vhosts => ChangeMap (vhosts m ++ items) (queues m) (exchanges m) (bindings m)
                        (users m) (permissions m) (topic_permissions m)
  | Queues => ChangeMap (vhosts m) (queues m ++ items) (exchanges m) (bindings m)
                        (users m) (permissions m) (topic_permissions m)
  | Exchanges => ChangeMap (vhosts m) (queues m) (exchanges m ++ items) (bindings m)
                           (users m) (permissions m) (topic_permissions m)
  | Bindings => ChangeMap (vhosts m) (queues m) (exchanges m) (bindings m ++ items)
                          (users m) (permissions m) (topic_permissions m)
  | Users => ChangeMap (vhosts m) (queues m) (exchanges m) (bindings m)
                       (users m ++ items) (permissions m) (topic_permissions m)
  | Permissions => ChangeMap (vhosts m) (queues m) (exchanges m) (bindings m)
                             (users m) (permissions m ++ items) (topic_permissions m)
  | TopicPermissions => ChangeMap (vhosts m) (queues m) (exchanges m) (bindings m)
                                  (users m) (permissions m)
                                  (topic_permissions m ++ items)
  end.

(** The four change maps local to [diff]. *)
Record collected : Type := Collected {
  c_added : changeMap value;
  c_deleted : changeMap value;
  c_changed : changeMap change;
  c_unaffected : changeMap value;
}.

Global Instance collected_eq_dec : EqDecision collected.
Proof. solve_decision. Defined.

Definition collectDiff (key : rtype) (beforeMap afterMap : HashSet.t)
    (c : collected) : collected :=
  let changes := (diffMapsConsuming beforeMap afterMap).2 in
  Collected (push (c_added c) key (MapDiff.added changes))
            (push (c_deleted c) key (MapDiff.deleted changes))
            (push (c_changed c) key (MapDiff.changed changes))
            (push (c_unaffected c) key (MapDiff.unaffected changes)).

(** The predicate of the filter over [unaffected.bindings]. *)
Definition implicitlyAffected_by (changed_exchanges changed_queues : list change)
    (binding : value) : bool :=
  let vhost := get binding "vhost" in
  let source := get binding "source" in
  let destination := get binding "destination" in
  let destination_type := get binding "destination_type" in
  if existsb (λ c, let ex := before c in
                strict_eq (get ex "vhost") vhost
                && (strict_eq (get ex "name") source
                    || (strict_eq destination_type (Some (VStr "exchange"))
                        && strict_eq (get ex "name") destination)))
             changed_exchanges
  then true
  else if negb (strict_eq destination_type (Some (VStr "queue"))) then false
  else existsb (λ c, let q := before c in
                  strict_eq (get q "vhost") vhost
                  && (strict_eq (get q "name") destination
                      && strict_eq destination_type (Some (VStr "queue"))))
               changed_queues.

(** What [diff] returns. *)
Module Diff.
Record t : Type := make {
  added : changeMap value;
  deleted : changeMap value;
  changed : changeMap change;
  implicitlyAffected : list value;  (* [implicitlyAffected.bindings] *)
}.
Global Instance eq_dec : EqDecision t.
Proof. solve_decision. Defined.
End Diff.

(** The body of [diff] once both indexes are built: the local change maps
    after the seven [collectDiff] calls, and the implicitly affected
    bindings computed after the fourth. *)
Definition collectAll (before after : Index.t) : collected * list value :=
  let c := Collected makeChangeMap makeChangeMap makeChangeMap makeChangeMap in
  let c := collectDiff Vhosts (Index.vhosts before) (Index.vhosts after) c in
  let c := collectDiff Queues (Index.queues before) (Index.queues after) c in
  let c := collectDiff Exchanges (Index.exchanges before) (Index.exchanges after) c in
  let c := collectDiff Bindings (Index.bindings before) (Index.bindings after) c in
  let implicitlyAffectedBindings :=
    List.filter (implicitlyAffected_by (exchanges (c_changed c)) (queues (c_changed c)))
                (bindings (c_unaffected c)) in
  let c := collectDiff Users (Index.users before) (Index.users after) c in
  let c := collectDiff Permissions (Index.permissions before) (Index.permissions after) c in
  let c := collectDiff TopicPermissions (Index.topic_permissions before)
                       (Index.topic_permissions after) c in
  (c, implicitlyAffectedBindings).

Definition ignoreIndexOf (ignoreList : option (list value)) : option Index.t :=
  match ignoreList with
  | Some (sel :: rest) => Some (Index.fromIgnoreList (sel :: rest))
  | _ => None
  end.

(** The local variables of [diff] at its [return]: the two indexes as built
    (before they are drained), the four change maps and the implicitly
    affected bindings. *)
Record locals : Type := Locals {
  l_before : Index.t;
  l_after : Index.t;
  l_collected : collected;
  l_implicitlyAffectedBindings : list value;
}.

Global Instance locals_eq_dec : EqDecision locals.
Proof. solve_decision. Defined.

(** [diff] up to its [return]. *)
Definition diffLocals (beforeDef afterDef : definitions)
    (ignoreList : option (list value)) : outcome locals :=
  let ignoreIndex := ignoreIndexOf ignoreList in
  (try before ← Index.fromDefinitions beforeDef false ignoreIndex;
   try after ← Index.fromDefinitions afterDef false ignoreIndex;
   let '(c, implicitlyAffectedBindings) := collectAll before after in
   Ok (Locals before after c implicitlyAffectedBindings))%outcome.

(** [diff]: the added, deleted and changed maps and the implicitly affected
    bindings are returned; the unaffected map stays local. *)
Definition diff (beforeDef afterDef : definitions) (ignoreList : option (list value))
    : outcome Diff.t :=
  (try l ← diffLocals beforeDef afterDef ignoreList;
   Ok (Diff.make (c_added (l_collected l)) (c_deleted (l_collected l))
                 (c_changed (l_collected l)) (l_implicitlyAffectedBindings l)))%outcome.

(** * The deployment planner ([src/deploy.js]) *)

(** ** Strings and paths *)

(** [String(v)]. *)
Fixpoint to_string (v : value) : string :=
  match v with
  | VNull => "null"
  | VBool b => if b then "true" else "false"
  | VNum n => pretty n
  | VStr s => s
  | VArr xs =>
      (fix join (xs : list value) : string :=
         let element x := match x with VNull => "" | _ => to_string x end in
         match xs with
         | [] => ""
         | [x] => element x
         | x :: rest => element x +:+ "," +:+ join rest
         end) xs
  | VObj _ => "[object Object]"
  end.

Definition js_string (v : option value) : string :=
  match v with
  | None => "undefined"
  | Some v => to_string v
  end.

(** The characters [encodeURIComponent] leaves as they are. *)
Definition unreserved (c : ascii) : bool :=
  let n := Ascii.nat_of_ascii c in
  (Nat.leb 65 n && Nat.leb n 90) || (Nat.leb 97 n && Nat.leb n 122)
  || (Nat.leb 48 n && Nat.leb n 57)
  || bool_decide (c ∈ String.list_ascii_of_string "-_.!~*'()").

Definition hex_digit (n : nat) : ascii :=
  nth n (String.list_ascii_of_string "0123456789ABCDEF") "0"%char.

(** [encodeURIComponent] on a string held as its UTF-8 bytes. *)
Fixpoint percent_encode (s : string) : string :=
  match s with
  | EmptyString => EmptyString
  | String c rest =>
      if unreserved c then String c (percent_encode rest)
      else
        let n := Ascii.nat_of_ascii c in
        String "%" (String (hex_digit (n / 16)) (String (hex_digit (n mod 16))
                                                    (percent_encode rest)))
  end.

Definition encodeURIComponent (v : option value) : string :=
  percent_encode (js_string v).

(** The tagged template [url]: every interpolated value is encoded. *)
Definition url (strs : list string) (values : list (option value)) : string :=
  let escapedValues := encodeURIComponent <$> values in
  String.concat "" (imap (λ idx val, default "undefined" (strs !! idx) +:+ val)
                         escapedValues)
  +:+ default "undefined" (last strs).

(** ** The table of remote operations *)

Inductive method : Type := GET | PUT | POST | DELETE.

Global Instance method_eq_dec : EqDecision method.
Proof. solve_decision. Defined.

(** [T[destination_type]]. *)
Definition T (destination_type : option value) : option value :=
  let k := js_string destination_type in
  if bool_decide (k = "exchange") then Some (VStr "e")
  else if bool_decide (k = "queue") then Some (VStr "q")
  else None.

(** [a || b] where [b] is defined. *)
Definition or_else (a : option value) (b : value) : value :=
  match a with
  | Some v => if truthy a then v else b
  | None => b
  end.

(** [resource.after || resource]: the record to send, which for a changed
    pair is its after record. *)
Definition resourceArg (resource : value) : value :=
  or_else (get resource "after") resource.

(** What [C[op][type]] evaluates to. *)
Inductive handler : Type :=
  | Handler (f : value → method * string)
  | NotAFunction          (* [C[op][type]] is [undefined] *)
  | NoTable.              (* [C[op]] is [undefined] *)

Definition C (op : opkind) (type : rtype) : handler :=
  match op, type with
  | Added, Vhosts => Handler (λ r, (PUT, url ["/api/vhosts/"; ""] [get r "name"]))
  | Added, Users => Handler (λ r, (PUT, url ["/api/users/"; ""] [get r "name"]))
  | Added, Queues =>
      Handler (λ r, (PUT, url ["/api/queues/"; "/"; ""] [get r "vhost"; get r "name"]))
  | Added, Exchanges =>
      Handler (λ r, (PUT, url ["/api/exchanges/"; "/"; ""]
                              [get r "vhost"; get r "name"]))
  | Added, Bindings =>
      Handler (λ r, (POST, url ["/api/bindings/"; "/e/"; "/"; "/"; ""]
                               [get r "vhost"; get r "source";
                                T (get r "destination_type"); get r "destination"]))
  | Added, Permissions =>
      Handler (λ r, (PUT, url ["/api/permissions/"; "/"; ""]
                              [get r "vhost"; get r "user"]))
  | Added, TopicPermissions =>
      Handler (λ r, (PUT, url ["/api/topic-permissions/"; "/"; ""]
                              [get r "vhost"; get r "user"]))
  | Deleted, Vhosts => Handler (λ r, (DELETE, url ["/api/vhosts/"; ""] [get r "name"]))
  | Deleted, Users => Handler (λ r, (DELETE, url ["/api/users/"; ""] [get r "name"]))
  | Deleted, Queues =>
      Handler (λ r, (DELETE, url ["/api/queues/"; "/"; ""]
                                 [get r "vhost"; get r "name"]))
  | Deleted, Exchanges =>
      Handler (λ r, (DELETE, url ["/api/exchanges/"; "/"; ""]
                                 [get r "vhost"; get r "name"]))
  | Deleted, Bindings =>
      Handler (λ r, (DELETE, url ["/api/bindings/"; "/e/"; "/"; "/"; "/"; ""]
                                 [get r "vhost"; get r "source";
                                  T (get r "destination_type"); get r "destination";
                                  Some (or_else (get r "properties_key") (VStr "~"))]))
  | Deleted, Permissions =>
      Handler (λ r, (DELETE, url ["/api/permissions/"; "/"; ""]
                                 [get r "vhost"; get r "user"]))
  | Deleted, TopicPermissions =>
      Handler (λ r, (DELETE, url ["/api/topic-permissions/"; "/"; ""]
                                 [get r "vhost"; get r "user"]))
  | Changed, Vhosts => Handler (λ r, (PUT, url ["/api/vhosts/"; ""] [get r "name"]))
  | Changed, Users => Handler (λ r, (PUT, url ["/api/users/"; ""] [get r "name"]))
  | Changed, Permissions =>
      Handler (λ r, (PUT, url ["/api/permissions/"; "/"; ""]
                              [get r "vhost"; get r "user"]))
  | Changed, TopicPermissions =>
      Handler (λ r, (PUT, url ["/api/topic-permissions/"; "/"; ""]
                              [get r "vhost"; get r "user"]))
  | Changed, _ => NotAFunction
  | ImplicitlyAffected, _ => NoTable
  end.

(** ** Effects: the console and the transport *)

Inductive event : Type :=
  | Warn (message : string)                               (* [console.warn] *)
  | Error (message : string)                              (* [console.error] *)
  | Request (m : method) (path : string) (body : value).  (* [client.request] *)

Global Instance event_eq_dec : EqDecision event.
Proof. solve_decision. Defined.

Definition is_request (e : event) : bool :=
  match e with Request _ _ _ => true | _ => false end.

(** The remote calls of a trace, in the order they were issued. *)
Definition requests (trace : list event) : list event :=
  List.filter is_request trace.

(** How a promise settled. *)
Inductive settled : Type :=
  | Fulfilled
  | RejectedWith (reason : error).

Global Instance settled_eq_dec : EqDecision settled.
Proof. solve_decision. Defined.

Definition fulfilled (s : settled) : bool :=
  match s with Fulfilled => true | RejectedWith _ => false end.

Definition operation_name (op : opkind) : string :=
  match op with
  | Added => "added"
  | Deleted => "deleted"
  | Changed => "changed"
  | ImplicitlyAffected => "implicitlyAffected"
  end.

Definition type_name (type : rtype) : string :=
  match type with
  | Vhosts => "vhosts"
  | Queues => "queues"
  | Exchanges => "exchanges"
  | Bindings => "bindings"
  | Users => "users"
  | Permissions => "permissions"
  | TopicPermissions => "topic_permissions"
  end.

(** [{ before, after }] as the object it is. *)
Definition pair_object (c : change) : value :=
  obj [("before", before c); ("after", after c)].

(** [changes[operation][type]]; [None] is [undefined]. *)
Definition entries_of (changes : Diff.t) (operation : opkind) (type : rtype)
    : option (list value) :=
  match operation with
  | Added => Some (at_key (Diff.added changes) type)
  | Deleted => Some (at_key (Diff.deleted changes) type)
  | Changed => Some (pair_object <$> at_key (Diff.changed changes) type)
  | ImplicitlyAffected =>
      match type with
      | Bindings => Some (Diff.implicitlyAffected changes)
      | _ => None
      end
  end.

(** The texts of the warnings of [deploy]. *)
Definition dryRunWarning : string :=
  "Warning: Dry run is enabled. No changes will be applied.".

Definition missingPermissionsWarning : string :=
  "There are added vhosts that lack permissions to later update those vhosts. Make sure there there are added permissions for every added vhost.".

Definition ignoringWarning (changedResourceCount : nat) : string :=
  "Ignoring " +:+ pretty changedResourceCount
  +:+ " changed resources, which need to be deleted and recreated. Provide --recreate-changed option to deploy changed resources.".

Definition ignoredWarning (deletedResourceCount : nat) : string :=
  "Ignored " +:+ pretty deletedResourceCount
  +:+ " deleted resource(s). Remove --no-deletions to remove deleted resources from server.".

Record options : Type := Options {
  dryRun : bool;
  noDeletions : bool;
  recreateChanged : bool;
  ignoreList : option (list value);
}.

(** Modelled from the spec: [src/RabbitClient.js] is not among the sources.
    A client is created for a server with the dry-run flag, which it
    honours in [request]. *)
Record client : Type := RabbitClient {
  client_dryRun : bool;
}.

Section Deploy.

(** The state of the broker, and the two collaborators that talk to it:
    [client.request], which settles one way or the other, and [diffServer]
    ([src/deploy.utils.js], not among the sources), which yields the change
    sets from the live state to the definitions. *)
Context {Server : Type}.
Context (request : client → Server → method → string → value → Server * settled).
Context (diffServer : client → Server → definitions → option (list value) → Diff.t).

Record world : Type := World {
  server : Server;
  trace : list event;
}.

Global Instance world_eq_dec `{EqDecision Server} : EqDecision world.
Proof. solve_decision. Defined.

(** Computations that talk to the broker and the console, and may throw. *)
Definition M (A : Type) : Type := world → world * outcome A.

Global Instance M_ret : MRet M := λ A a w, (w, Ok a).
Global Instance M_bind : MBind M := λ A B k m w,
  match m w with
  | (w', Ok a) => k a w'
  | (w', Throw e) => (w', Throw e)
  end.

Definition throw {A} (e : error) : M A := λ w, (w, Throw e).

Definition emit (e : event) : M unit :=
  λ w, (World (server w) (trace w ++ [e]), Ok tt).

Definition when (b : bool) (m : M unit) : M unit := if b then m else mret tt.

Definition client_request (c : client) (m : method) (path : string) (body : value)
    : M settled :=
  λ w, let '(s, r) := request c (server w) m path body in
       (World s (trace w ++ [Request m path body]), Ok r).

(** The callback of [map] in [deployResources]: one promise per resource.
    A rejection is a settlement, not a throw.  The delay before the request
    grows with the index, so the requests of a batch are issued in index
    order; time itself is not modelled. *)
Definition dispatch (c : client) (op : opkind) (type : rtype) (resource : value)
    : M settled :=
  match C op type with
  | Handler f =>
      let resourceArg := resourceArg resource in
      let '(method, url) := f resourceArg in
      client_request c method url resourceArg
  | NotAFunction => mret (RejectedWith (InvalidOperation op type))
  | NoTable => mret (RejectedWith TypeError)
  end.

(** [Promise.allSettled]: every promise runs to settlement. *)
Fixpoint allSettled (promises : list (M settled)) : M (list settled) :=
  match promises with
  | [] => mret []
  | p :: rest => r ← p; rs ← allSettled rest; mret (r :: rs)
  end.

Definition kept (filterFn : option (value → option value)) (resource : value) : bool :=
  match filterFn with
  | Some f => truthy (f resource)
  | None => true
  end.

Definition failedNotice (result succeeded : nat) : string :=
  if bool_decide (result ≠ succeeded)
  then ", " +:+ pretty (result - succeeded) +:+ " failed" else "".

Definition report (operation : opkind) (operationOverride : option opkind)
    (type : rtype) (result succeeded : nat) : string :=
  match operation, operationOverride with
  | Changed, Some override =>
      operation_name override +:+ "(for changing) " +:+ pretty succeeded +:+ " "
      +:+ type_name type +:+ failedNotice result succeeded
  | ImplicitlyAffected, Some Added =>
      "recreated implicitly affected " +:+ pretty succeeded +:+ " "
      +:+ type_name type +:+ failedNotice result succeeded
  | _, _ =>
      operation_name operation +:+ " " +:+ pretty succeeded +:+ " "
      +:+ type_name type +:+ failedNotice result succeeded
  end.

Definition skippedNotice (skipped : nat) (operation : opkind) (type : rtype)
    : string :=
  "skipped " +:+ pretty skipped +:+ " " +:+ operation_name operation +:+ " "
  +:+ type_name type +:+ " operations".

Definition deployResources (c : client) (changes : Diff.t) (operation : opkind)
    (type : rtype) (operationOverride : option opkind)
    (filterFn : option (value → option value)) : M unit :=
  match entries_of changes operation type with
  | None => throw TypeError
  | Some entries =>
      if bool_decide (entries = []) then mret tt
      else
        let skipped := List.filter (λ r, negb (kept filterFn r)) entries in
        let op := default operation operationOverride in
        result ← allSettled (dispatch c op type <$> List.filter (kept filterFn) entries);
        let succeeded := List.filter fulfilled result in
        let failed := List.filter (λ r, negb (fulfilled r)) result in
        when (bool_decide (skipped ≠ []))
             (emit (Error (skippedNotice (length skipped) operation type)));;
        emit (Error (report operation operationOverride type (length result)
                            (length succeeded)));;
        match failed with
        | RejectedWith reason :: _ => throw reason
        | _ => mret tt
        end
  end.

(** [Object.entries] of a change map. *)
Definition entries {A} (m : changeMap A) : list (rtype * list A) :=
  (λ type, (type, at_key m type)) <$> all_types.

Definition mutableResources : list rtype := [Users; Permissions; TopicPermissions].

Definition changedResourceCount (changes : Diff.t) : nat :=
  foldl (λ acc '(type, list),
           acc + (if bool_decide (type ∈ mutableResources) then 0 else length list))
        0 (entries (Diff.changed changes)).

Definition hasAddedPermissionsForVhosts (changes : Diff.t) : bool :=
  forallb (λ v, negb (truthy (List.find (λ p, strict_eq (get p "vhost") (get v "name"))
                                        (permissions (Diff.added changes)))))
          (vhosts (Diff.added changes)).

Definition deletedResourceCount (changes : Diff.t) : nat :=
  foldl (λ acc '(_, list), acc + length list) 0 (entries (Diff.deleted changes)).

Definition notInDeletedVhost (changes : Diff.t) : value → option value :=
  if bool_decide (vhosts (Diff.deleted changes) ≠ []) then
    λ r, List.find (λ deleted, strict_eq (get r "vhost") (get deleted "vhost"))
                   (vhosts (Diff.deleted changes))
  else λ _, Some (VBool true).

Definition deploy (definitions : definitions) (opts : options) : M unit :=
  when (dryRun opts)
       (emit (Warn dryRunWarning));;
  let client := RabbitClient (dryRun opts) in
  changes ← (λ w, (w, Ok (diffServer client (server w) definitions (ignoreList opts))));
  when (bool_decide (vhosts (Diff.added changes) ≠ [])
        && hasAddedPermissionsForVhosts changes)
       (emit (Warn missingPermissionsWarning));;
  if noDeletions opts && recreateChanged opts then throw OptionConflict
  else
    when (bool_decide (changedResourceCount changes ≠ 0) && negb (recreateChanged opts))
         (emit (Warn (ignoringWarning (changedResourceCount changes))));;
    deployResources client changes Added Vhosts None None;;
    deployResources client changes Added Users None None;;
    deployResources client changes Added Exchanges None None;;
    deployResources client changes Added Queues None None;;
    deployResources client changes Changed Vhosts None None;;
    deployResources client changes Changed Users None None;;
    (if recreateChanged opts then
       deployResources client changes Changed Exchanges (Some Deleted) None;;
       deployResources client changes Changed Exchanges (Some Added) None;;
       deployResources client changes Changed Queues (Some Deleted) None;;
       deployResources client changes Changed Queues (Some Added) None;;
       deployResources client changes Changed Bindings (Some Deleted) None;;
       deployResources client changes Changed Bindings (Some Added) None;;
       deployResources client changes ImplicitlyAffected Bindings (Some Added) None
     else mret tt);;
    deployResources client changes Added Bindings None None;;
    deployResources client changes Added Permissions None None;;
    deployResources client changes Added TopicPermissions None None;;
    deployResources client changes Changed Permissions None None;;
    deployResources client changes Changed TopicPermissions None None;;
    if negb (noDeletions opts) then
      let notInDeletedVhost := notInDeletedVhost changes in
      deployResources client changes Deleted TopicPermissions None None;;
      deployResources client changes Deleted Permissions None (Some notInDeletedVhost);;
      deployResources client changes Deleted Users None (Some notInDeletedVhost);;
      deployResources client changes Deleted Bindings None None;;
      deployResources client changes Deleted Queues None None;;
      deployResources client changes Deleted Exchanges None None;;
      deployResources client changes Deleted Vhosts None None
    else
      when (bool_decide (deletedResourceCount changes ≠ 0))
           (emit (Warn (ignoredWarning (deletedResourceCount changes)))).

End Deploy.

(** ** The [await] of [diffServer] *)

Section Await.

(** [deploy] with line 104 as it is.  [await diffServer(client, definitions,
    ignoreList)] ([src/deploy.utils.js], not among the sources) talks to the
    broker through the client, and then resolves to the change sets or
    rejects (a malformed record, a failure of the transport).  It yields the
    state in which it leaves the broker, what it did on the transport, and
    how it settled. *)
Context {Server : Type}.
Context (request : client → Server → method → string → value → Server * settled).
Context (diffServer : client → Server → definitions → option (list value)
                      → Server * list event * outcome Diff.t).

Definition await_diffServer (c : client) (definitions : definitions)
    (ignoreList : option (list value)) : M Diff.t :=
  λ w, let '(sv, reads, awaited) := diffServer c (server w) definitions ignoreList in
       (World sv (trace w ++ reads), awaited).

Definition deploy_awaiting (definitions : definitions) (opts : options) : M unit :=
  when (dryRun opts)
       (emit (Warn dryRunWarning));;
  let client := RabbitClient (dryRun opts) in
  changes ← await_diffServer client definitions (ignoreList opts);
  when (bool_decide (vhosts (Diff.added changes) ≠ [])
        && hasAddedPermissionsForVhosts changes)
       (emit (Warn missingPermissionsWarning));;
  if noDeletions opts && recreateChanged opts then throw OptionConflict
  else
    when (bool_decide (changedResourceCount changes ≠ 0) && negb (recreateChanged opts))
         (emit (Warn (ignoringWarning (changedResourceCount changes))));;
    deployResources request client changes Added Vhosts None None;;
    deployResources request client changes Added Users None None;;
    deployResources request client changes Added Exchanges None None;;
    deployResources request client changes Added Queues None None;;
    deployResources request client changes Changed Vhosts None None;;
    deployResources request client changes Changed Users None None;;
    (if recreateChanged opts then
       deployResources request client changes Changed Exchanges (Some Deleted) None;;
       deployResources request client changes Changed Exchanges (Some Added) None;;
       deployResources request client changes Changed Queues (Some Deleted) None;;
       deployResources request client changes Changed Queues (Some Added) None;;
       deployResources request client changes Changed Bindings (Some Deleted) None;;
       deployResources request client changes Changed Bindings (Some Added) None;;
       deployResources request client changes ImplicitlyAffected Bindings (Some Added) None
     else mret tt);;
    deployResources request client changes Added Bindings None None;;
    deployResources request client changes Added Permissions None None;;
    deployResources request client changes Added TopicPermissions None None;;
    deployResources request client changes Changed Permissions None None;;
    deployResources request client changes Changed TopicPermissions None None;;
    if negb (noDeletions opts) then
      let notInDeletedVhost := notInDeletedVhost changes in
      deployResources request client changes Deleted TopicPermissions None None;;
      deployResources request client changes Deleted Permissions None (Some notInDeletedVhost);;
      deployResources request client changes Deleted Users None (Some notInDeletedVhost);;
      deployResources request client changes Deleted Bindings None None;;
      deployResources request client changes Deleted Queues None None;;
      deployResources request client changes Deleted Exchanges None None;;
      deployResources request client changes Deleted Vhosts None None
    else
      when (bool_decide (deletedResourceCount changes ≠ 0))
           (emit (Warn (ignoredWarning (deletedResourceCount changes)))).

End Await.

(** * The command line ([cli.js]) *)

(** [Object.fromEntries]: a later entry of the same key wins. *)
Definition fromEntries (entries : list (string * value)) : value :=
  VObj (foldl (λ m kv, <[kv.1 := kv.2]> m) ∅ entries).

(** [Object.entries] of a change map, by the names of its keys. *)
Definition named_entries (m : changeMap value) : list (string * list value) :=
  (λ '(type, list), (type_name type, list)) <$> entries m.

(** The changed map as the object it is: every entry a [{ before, after }]. *)
Definition pairs (m : changeMap change) : changeMap value :=
  ChangeMap (pair_object <$> vhosts m) (pair_object <$> queues m)
            (pair_object <$> exchanges m) (pair_object <$> bindings m)
            (pair_object <$> users m) (pair_object <$> permissions m)
            (pair_object <$> topic_permissions m).

(** [Object.entries(result)], each operation with the [Object.entries] of its
    resources. *)
Definition result_entries (result : Diff.t)
    : list (string * list (string * list value)) :=
  [("added", named_entries (Diff.added result));
   ("deleted", named_entries (Diff.deleted result));
   ("changed", named_entries (pairs (Diff.changed result)));
   ("implicitlyAffected", [("bindings", Diff.implicitlyAffected result)])].

(** The resource types of one operation that have changes, with the changes
    or, under [--summary], their number. *)
Definition shaken (summary : bool) (resources : list (string * list value))
    : list (string * value) :=
  (λ '(key, changes),
     (key, if summary then VNum (Z.of_nat (length changes)) else VArr changes))
  <$> List.filter (λ '(_, changes), bool_decide (changes ≠ [])) resources.

(** The object that [commands.diff] logs without [--json]: the [reduce] over
    the operations keeps those that have changes. *)
Definition shake (summary : bool) (result : Diff.t) : value :=
  fromEntries
    (foldl (λ acc '(op, resources),
              let shaken := shaken summary resources in
              if bool_decide (shaken ≠ []) then acc ++ [(op, fromEntries shaken)]
              else acc)
           [] (result_entries result)).

(** The object whose JSON text [commands.diff] logs under [--json]. *)
Definition result_object (result : Diff.t) : value :=
  obj ((λ '(op, resources),
          (op, obj ((λ '(key, changes), (key, VArr changes)) <$> resources)))
       <$> result_entries result).

(** [commands.diff] on two definitions files as read: the value logged.
    [diff] is called without an ignore list. *)
Definition commands_diff (json summary : bool) (before after : definitions)
    : outcome value :=
  (try result ← diff before after None;
   Ok (if json then result_object result else shake summary result))%outcome.

(** * The vocabulary of the properties *)

(** ** Diffing one resource type in closed form *)

Section Classification.
Context (h : value → key).

Definition lookup (B : list value) (a : value) : option value :=
  List.find (λ r, bool_decide (h r = h a)) B.

Definition without (ks : list key) (l : list value) : list value :=
  List.filter (λ r, bool_decide (h r ∉ ks)) l.

Definition added_of (B l : list value) : list value :=
  List.filter (λ a, bool_decide (lookup B a = None)) l.

Definition changed_of (B l : list value) : list change :=
  omap (λ a, b ← lookup B a;
             if isDeepStrictEqual b a then None else Some (Change b a)) l.

Definition unaffected_of (B l : list value) : list value :=
  List.filter (λ a, match lookup B a with
                    | Some b => isDeepStrictEqual b a
                    | None => false
                    end) l.

End Classification.

Definition exactly_one (P Q R : Prop) : Prop :=
  (P ∧ ¬ Q ∧ ¬ R) ∨ (¬ P ∧ Q ∧ ¬ R) ∨ (¬ P ∧ ¬ Q ∧ R).

(** The four sequences of one resource type partition the members of the
    two sets, and their identities partition the union of identities. *)
Definition partitions (h : value → key) (B A : list value) (d : MapDiff.t) : Prop :=
  let ids := h <$> (MapDiff.added d ++ MapDiff.deleted d
                    ++ (after <$> MapDiff.changed d) ++ MapDiff.unaffected d) in
  (∀ a, a ∈ A →
     exactly_one (a ∈ MapDiff.added d) (a ∈ after <$> MapDiff.changed d)
                 (a ∈ MapDiff.unaffected d))
  ∧ (∀ b, b ∈ B →
       exactly_one (b ∈ MapDiff.deleted d) (b ∈ before <$> MapDiff.changed d)
                   (b ∈ MapDiff.unaffected d))
  ∧ MapDiff.added d ++ (after <$> MapDiff.changed d) ++ MapDiff.unaffected d ≡ₚ A
  ∧ MapDiff.deleted d ++ (before <$> MapDiff.changed d) ++ MapDiff.unaffected d ≡ₚ B
  ∧ NoDup ids
  ∧ (∀ k, k ∈ ids ↔ k ∈ h <$> A ∨ k ∈ h <$> B).

(** What a collection built from a sequence of records holds. *)
Definition indexes (ig : option Index.t) (ty : rtype) (records : list value)
    (s : HashSet.t) : Prop :=
  HashSet.kind s = ty
  ∧ HashSet.wf s
  ∧ (∀ r, r ∈ HashSet.members s → r ∈ records)
  ∧ (∀ k, k ∈ identity ty <$> HashSet.members s
          ↔ ∃ r, r ∈ records ∧ Index.ignored ig ty r = false
                 ∧ identity ty r = k).

(** The four sequences of one resource type. *)
Definition classes (c : collected) (ty : rtype) : MapDiff.t :=
  MapDiff.make (at_key (c_added c) ty) (at_key (c_deleted c) ty)
               (at_key (c_changed c) ty) (at_key (c_unaffected c) ty).



(** ** The plan of a deployment *)

(** The remote call that a resource gives rise to under an operation, if
    the table has one. *)
Definition call (op : opkind) (type : rtype) (resource : value) : list event :=
  match C op type with
  | Handler f =>
      [Request (f (resourceArg resource)).1 (f (resourceArg resource)).2
               (resourceArg resource)]
  | _ => []
  end.

Definition calls (op : opkind) (type : rtype) (resources : list value) : list event :=
  resources ≫= call op type.

(** One [await deployResources(...)] of [deploy]. *)
Record batch : Type := Batch {
  b_operation : opkind;
  b_type : rtype;
  b_override : option opkind;
  b_filter : option (value → option value);
}.

(** The remote calls of a batch: one per entry that passes the filter. *)
Definition batch_calls (changes : Diff.t) (b : batch) : list event :=
  match entries_of changes (b_operation b) (b_type b) with
  | Some entries =>
      calls (default (b_operation b) (b_override b)) (b_type b)
            (List.filter (kept (b_filter b)) entries)
  | None => []
  end.

(** The batches of [deploy] in program order. *)
Definition additions : list batch :=
  [Batch Added Vhosts None None; Batch Added Users None None;
   Batch Added Exchanges None None; Batch Added Queues None None].

Definition plan (changes : Diff.t) (opts : options) : list batch :=
  additions
  ++ [Batch Changed Vhosts None None; Batch Changed Users None None]
  ++ (if recreateChanged opts then
        [Batch Changed Exchanges (Some Deleted) None;
         Batch Changed Exchanges (Some Added) None;
         Batch Changed Queues (Some Deleted) None;
         Batch Changed Queues (Some Added) None;
         Batch Changed Bindings (Some Deleted) None;
         Batch Changed Bindings (Some Added) None;
         Batch ImplicitlyAffected Bindings (Some Added) None]
      else [])
  ++ [Batch Added Bindings None None; Batch Added Permissions None None;
      Batch Added TopicPermissions None None; Batch Changed Permissions None None;
      Batch Changed TopicPermissions None None]
  ++ (if negb (noDeletions opts) then
        [Batch Deleted TopicPermissions None None;
         Batch Deleted Permissions None (Some (notInDeletedVhost changes));
         Batch Deleted Users None (Some (notInDeletedVhost changes));
         Batch Deleted Bindings None None; Batch Deleted Queues None None;
         Batch Deleted Exchanges None None; Batch Deleted Vhosts None None]
      else []).

(** The warnings of [deploy] before its first batch. *)
Definition preflight_warnings (opts : options) (changes : Diff.t) : list event :=
  (if dryRun opts then [Warn dryRunWarning] else [])
  ++ (if bool_decide (vhosts (Diff.added changes) ≠ [])
         && hasAddedPermissionsForVhosts changes
      then [Warn missingPermissionsWarning] else [])
  ++ (if noDeletions opts && recreateChanged opts then []
      else if bool_decide (changedResourceCount changes ≠ 0)
              && negb (recreateChanged opts)
           then [Warn (ignoringWarning (changedResourceCount changes))] else []).

(** How the report line of a batch starts. *)
Definition label (operation : opkind) (operationOverride : option opkind) : string :=
  match operation, operationOverride with
  | Changed, Some override => operation_name override +:+ "(for changing) "
  | ImplicitlyAffected, Some Added => "recreated implicitly affected "
  | _, _ => operation_name operation +:+ " "
  end.

(** The outcome of a batch: the cause of its first failure, if any. *)
Definition verdict (result : list settled) : outcome unit :=
  match List.filter (λ r, negb (fulfilled r)) result with
  | RejectedWith reason :: _ => Throw reason
  | _ => Ok tt
  end.

(** The console lines of a batch. *)
Definition batch_report (operation : opkind) (type : rtype)
    (operationOverride : option opkind) (skipped : list value)
    (result : list settled) : list event :=
  (if bool_decide (skipped ≠ [])
   then [Error (skippedNotice (length skipped) operation type)] else [])
  ++ [Error (report operation operationOverride type (length result)
                    (length (List.filter fulfilled result)))].

(** The remote calls of the additive phase, in program order. *)
Definition creations (changes : Diff.t) : list event :=
  calls Added Vhosts (vhosts (Diff.added changes))
  ++ calls Added Users (users (Diff.added changes))
  ++ calls Added Exchanges (exchanges (Diff.added changes))
  ++ calls Added Queues (queues (Diff.added changes)).

(** [deploy] cut into its preflight, its batches and its epilogue, over the
    same broker and collaborators as the planner. *)
Section Plan.
Context {Server : Type}.
Context (request : client → Server → method → string → value → Server * settled).
Context (diffServer : client → Server → definitions → option (list value) → Diff.t).

Abbreviation M' := (M (Server := Server)).

Definition run_batch (c : client) (changes : Diff.t) (b : batch) : M' unit :=
  deployResources request c changes (b_operation b) (b_type b) (b_override b)
                  (b_filter b).

Fixpoint run_plan (c : client) (changes : Diff.t) (bs : list batch) : M' unit :=
  match bs with
  | [] => mret tt
  | b :: rest => run_batch c changes b;; run_plan c changes rest
  end.

(** What [deploy] does before its first batch: the warnings, the diff
    against the live server and the check of the options. *)
Definition preflight (definitions : definitions) (opts : options) : M' Diff.t :=
  when (dryRun opts)
       (emit (Warn dryRunWarning));;
  changes ← (λ w, (w, Ok (diffServer (RabbitClient (dryRun opts)) (server w)
                                     definitions (ignoreList opts))));
  when (bool_decide (vhosts (Diff.added changes) ≠ [])
        && hasAddedPermissionsForVhosts changes)
       (emit (Warn missingPermissionsWarning));;
  if noDeletions opts && recreateChanged opts then throw OptionConflict
  else
    when (bool_decide (changedResourceCount changes ≠ 0) && negb (recreateChanged opts))
         (emit (Warn (ignoringWarning (changedResourceCount changes))));;
    mret changes.

(** What [deploy] does after its last batch. *)
Definition epilogue (changes : Diff.t) (opts : options) : M' unit :=
  if negb (noDeletions opts) then mret tt
  else
    when (bool_decide (deletedResourceCount changes ≠ 0))
         (emit (Warn (ignoredWarning (deletedResourceCount changes)))).

End Plan.

(** ** Events *)

Definition is_warning (e : event) : bool :=
  match e with Warn _ => true | _ => false end.

(** ** Strings and logged objects *)

(** How often a character occurs in a string. *)
Fixpoint occurrences (c : ascii) (s : string) : nat :=
  match s with
  | EmptyString => 0
  | String x rest => (if bool_decide (x = c) then 1 else 0) + occurrences c rest
  end.

(** What a logged object lists for an operation and a resource type. *)
Definition listed (logged : value) (op key : string) : option value :=
  get logged op ≫= λ resources, get resources key.

(** The resources of an operation, as [Object.entries] gives them. *)
Definition resources_of (result : Diff.t) (op : opkind) : list (string * list value) :=
  match op with
  | Added => named_entries (Diff.added result)
  | Deleted => named_entries (Diff.deleted result)
  | Changed => named_entries (pairs (Diff.changed result))
  | ImplicitlyAffected => [("bindings", Diff.implicitlyAffected result)]
  end.

(** How a sequence of changes is shown. *)
Definition shown (summary : bool) (changes : list value) : value :=
  if summary then VNum (Z.of_nat (length changes)) else VArr changes.

(** The snapshot without any resource. *)
Definition no_definitions : definitions := Definitions [] [] [] [] [] [] [].

(** ** Sample definitions and a sample broker *)

(** The scenarios of the spec. *)
Definition q1 : value := obj [("vhost", VStr "/"); ("name", VStr "q1")].
Definition q1_durable : value :=
  obj [("vhost", VStr "/"); ("name", VStr "q1"); ("durable", VBool true)].
Definition only_queues (qs : list value) : definitions :=
  Definitions [] qs [] [] [] [] [].

(** A before/after pair: vhost [old] goes, vhost [new]
    comes, exchange [ex1] loses its [durable] flag, queue [q1] and the
    binding from [ex1] to [q1] stay as they are. *)
Definition vhost_named (name : string) : value := obj [("name", VStr name)].
Definition ex1 (durable : bool) : value :=
  obj [("vhost", VStr "/"); ("name", VStr "ex1"); ("type", VStr "direct");
       ("durable", VBool durable)].
Definition ex1_to_q1 : value :=
  obj [("vhost", VStr "/"); ("source", VStr "ex1"); ("destination", VStr "q1");
       ("destination_type", VStr "queue"); ("routing_key", VStr "");
       ("arguments", obj [])].
Definition snapshot_before : definitions :=
  Definitions [vhost_named "/"; vhost_named "old"] [q1] [ex1 true] [ex1_to_q1]
              [] [] [].
Definition snapshot_after : definitions :=
  Definitions [vhost_named "/"; vhost_named "new"] [q1] [ex1 false] [ex1_to_q1]
              [] [] [].

Definition index_of (vh qu ex bi us pe tp : list value) : Index.t :=
  Index.make (HashSet.make Vhosts vh)
             (HashSet.make Queues qu)
             (HashSet.make Exchanges ex)
             (HashSet.make Bindings bi)
             (HashSet.make Users us)
             (HashSet.make Permissions pe)
             (HashSet.make TopicPermissions tp).

Definition snapshot_locals : locals :=
  Locals
    (index_of [vhost_named "/"; vhost_named "old"] [q1] [ex1 true] [ex1_to_q1]
              [] [] [])
    (index_of [vhost_named "/"; vhost_named "new"] [q1] [ex1 false] [ex1_to_q1]
              [] [] [])
    (Collected (ChangeMap [vhost_named "new"] [] [] [] [] [] [])
               (ChangeMap [vhost_named "old"] [] [] [] [] [] [])
               (ChangeMap [] [] [Change (ex1 true) (ex1 false)] [] [] [] [])
               (ChangeMap [vhost_named "/"] [q1] [] [ex1_to_q1] [] [] []))
    [ex1_to_q1].

Definition snapshot_diff : Diff.t :=
  Diff.make (ChangeMap [vhost_named "new"] [] [] [] [] [] [])
            (ChangeMap [vhost_named "old"] [] [] [] [] [] [])
            (ChangeMap [] [] [Change (ex1 true) (ex1 false)] [] [] [] [])
            [ex1_to_q1].

Definition snapshot_before_locals : locals :=
  Locals
    (index_of [vhost_named "/"; vhost_named "old"] [q1] [ex1 true] [ex1_to_q1]
              [] [] [])
    (index_of [vhost_named "/"; vhost_named "old"] [q1] [ex1 true] [ex1_to_q1]
              [] [] [])
    (Collected makeChangeMap makeChangeMap makeChangeMap
               (ChangeMap [vhost_named "/"; vhost_named "old"] [q1] [ex1 true]
                          [ex1_to_q1] [] [] []))
    [].

(** A broker whose state is the definitions it holds.  [diffLive] diffs that
    state against the desired definitions, as [diffServer] does with what it
    fetches; the transports below settle every request without changing the
    state, the second one rejecting the requests to one path. *)
Definition diffLive (c : client) (live desired : definitions)
    (ignoreList : option (list value)) : Diff.t :=
  match diff live desired ignoreList with
  | Ok changes => changes
  | Throw _ => Diff.make makeChangeMap makeChangeMap makeChangeMap []
  end.

(** The same broker, read with one request before the diff; a construction
    error of the diff is the rejection of the reading. *)
Definition readLive (c : client) (live desired : definitions)
    (ignoreList : option (list value))
    : definitions * list event * outcome Diff.t :=
  (live, [Request GET "/api/definitions" VNull], diff live desired ignoreList).

Definition always_fulfils (c : client) (live : definitions) (m : method)
    (path : string) (body : value) : definitions * settled :=
  (live, Fulfilled).

Definition rejecting (failing : string) (c : client) (live : definitions)
    (m : method) (path : string) (body : value) : definitions * settled :=
  (live, if bool_decide (path = failing)
         then RejectedWith (Rejected "503 Service Unavailable") else Fulfilled).

Definition permission (vhost user : string) : value :=
  obj [("vhost", VStr vhost); ("user", VStr user); ("configure", VStr ".*");
       ("write", VStr ".*"); ("read", VStr ".*")].

Definition q2_in_new : value := obj [("vhost", VStr "new"); ("name", VStr "q2")].

Definition plain : options := Options false false false None.

(** A filter that keeps the records of one name. *)
Definition named (name : string) (r : value) : option value :=
  Some (VBool (strict_eq (get r "name") (Some (VStr name)))).

(** The broker has vhosts [keep] and [old] and a permission in [keep]; the
    desired state has vhost [keep] only, and no permission. *)
Definition live_cascade : definitions :=
  Definitions [vhost_named "keep"; vhost_named "old"] [] [] [] []
              [permission "keep" "guest"] [].
Definition desired_cascade : definitions :=
  Definitions [vhost_named "keep"] [] [] [] [] [] [].

(** The broker has vhost [/] and queue [q1]; the desired state changes
    both. *)
Definition traced (tracing : bool) : value :=
  obj [("name", VStr "/"); ("tracing", VBool tracing)].
Definition live_changed : definitions :=
  Definitions [traced false] [q1] [] [] [] [] [].
Definition desired_changed : definitions :=
  Definitions [traced true] [q1_durable] [] [] [] [] [].

(** The broker has vhost [/]; the desired state adds vhosts [new] and
    [other] and queue [q2] in [new]. *)
Definition live_root : definitions :=
  Definitions [vhost_named "/"] [] [] [] [] [] [].
(** Definitions with a vhost that has no name. *)
Definition malformed : definitions := Definitions [obj []] [] [] [] [] [] [].

Definition desired_additions : definitions :=
  Definitions [vhost_named "/"; vhost_named "new"; vhost_named "other"]
              [q2_in_new] [] [] [] [] [].

(** * Properties of the diff engine *)

(** The first scenario of the spec. *)
Example diff_changed_queue :
  diff (only_queues [q1]) (only_queues [q1_durable]) None
  = Ok (Diff.make makeChangeMap makeChangeMap
          (ChangeMap [] [Change q1 q1_durable] [] [] [] [] []) []).
Proof. compute_done. Qed.

(** ** One resource type *)

Lemma sublist_List_filter {A} (f : A → bool) (l : list A) :
  List.filter f l `sublist_of` l.
Proof.
  induction l as [|x l IH]; cbn [List.filter]; [done|].
  destruct (f x); by constructor.
Qed.

Section MapDiffFacts.
Context (h : value → key).

Lemma without_nil l : without h [] l = l.
Proof.
  unfold without. induction l as [|r l IH]; cbn [List.filter]; [done|].
  rewrite bool_decide_true by apply not_elem_of_nil. by rewrite IH.
Qed.

Lemma without_without ks1 ks2 l :
  without h ks2 (without h ks1 l) = without h (ks1 ++ ks2) l.
Proof.
  unfold without. induction l as [|r l IH]; cbn [List.filter]; [done|].
  destruct (decide (h r ∈ ks1)) as [Hin|Hout].
  - rewrite (bool_decide_false (h r ∉ ks1)) by tauto.
    rewrite (bool_decide_false (h r ∉ ks1 ++ ks2)); [done|].
    rewrite elem_of_app. tauto.
  - rewrite (bool_decide_true (h r ∉ ks1)) by done. cbn [List.filter].
    rewrite IH. apply (f_equal (λ b : bool, if b then _ else _)).
    apply bool_decide_ext. rewrite elem_of_app. tauto.
Qed.

Lemma elem_of_without ks l r : r ∈ without h ks l ↔ r ∈ l ∧ h r ∉ ks.
Proof.
  unfold without.
  rewrite (list_elem_of_In _ r), List.filter_In, bool_decide_eq_true.
  by rewrite <- list_elem_of_In.
Qed.

Lemma without_self l : without h (h <$> l) l = [].
Proof.
  destruct (without h (h <$> l) l) as [|r rest] eqn:E; [done|].
  assert (Hr : r ∈ without h (h <$> l) l) by (rewrite E; left).
  apply elem_of_without in Hr as [Hin Hout].
  destruct Hout. by apply list_elem_of_fmap_2.
Qed.

Lemma lookup_without k B a : h a ≠ k → lookup h (without h [k] B) a = lookup h B a.
Proof.
  intros Hne. unfold lookup, without.
  induction B as [|r B IH]; cbn [List.filter List.find]; [done|].
  destruct (decide (h r = k)) as [<-|Hrk].
  - rewrite (bool_decide_false (h r ∉ [h r])) by (rewrite list_elem_of_singleton; tauto).
    rewrite (bool_decide_false (h r = h a)) by congruence. exact IH.
  - rewrite (bool_decide_true (h r ∉ [k])) by (by rewrite list_elem_of_singleton).
    cbn [List.find]. by rewrite IH.
Qed.

Lemma lookup_Some B a b : lookup h B a = Some b → b ∈ B ∧ h b = h a.
Proof.
  intros H. apply List.find_some in H as [Hin Heq].
  apply bool_decide_eq_true in Heq. by rewrite list_elem_of_In.
Qed.

Lemma lookup_None B a : lookup h B a = None ↔ h a ∉ h <$> B.
Proof.
  unfold lookup. induction B as [|r B IH]; cbn [List.find fmap list_fmap].
  - split; [intros _; apply not_elem_of_nil|done].
  - rewrite not_elem_of_cons. case_bool_decide as Hr.
    + split; [done|]. intros [Hne _]. congruence.
    + rewrite IH. split; [intros ?; split; [congruence|done]|tauto].
Qed.

(** With unique identities, the record found is the one of that identity. *)
Lemma lookup_unique B a b :
  NoDup (h <$> B) → b ∈ B → h b = h a → lookup h B a = Some b.
Proof.
  unfold lookup.
  induction B as [|r B IH]; cbn [List.find fmap list_fmap]; intros Hnd Hin Heq.
  - by apply elem_of_nil in Hin.
  - apply NoDup_cons in Hnd as [Hr Hnd].
    apply elem_of_cons in Hin as [->|Hin].
    + by rewrite bool_decide_true.
    + rewrite bool_decide_false; [by apply IH|].
      intros Hra. apply Hr. rewrite Hra, <- Heq. by apply list_elem_of_fmap_2.
Qed.

Lemma classification_ext B B' l :
  (∀ a, a ∈ l → lookup h B' a = lookup h B a) →
  added_of h B' l = added_of h B l ∧ changed_of h B' l = changed_of h B l
  ∧ unaffected_of h B' l = unaffected_of h B l.
Proof.
  unfold added_of, changed_of, unaffected_of.
  induction l as [|a l IH]; intros Hl; csimpl; [done|].
  destruct IH as (IH1 & IH2 & IH3); [intros; apply Hl; by right|].
  rewrite (Hl a) by left. by rewrite IH1, IH2, IH3.
Qed.

Lemma elem_of_added_of B l a :
  a ∈ added_of h B l ↔ a ∈ l ∧ lookup h B a = None.
Proof.
  unfold added_of.
  rewrite (list_elem_of_In _ a), List.filter_In, bool_decide_eq_true.
  by rewrite <- list_elem_of_In.
Qed.

Lemma elem_of_changed_of B l c :
  c ∈ changed_of h B l
  ↔ after c ∈ l ∧ lookup h B (after c) = Some (before c) ∧ before c ≠ after c.
Proof.
  unfold changed_of, isDeepStrictEqual. rewrite list_elem_of_omap. split.
  - intros (a & Ha & Hc). destruct (lookup h B a) as [b|] eqn:Hb; [|done].
    simpl in Hc. case_bool_decide; [done|]. by simplify_eq.
  - intros (Ha & Hb & Hne). exists (after c). split; [done|].
    rewrite Hb. simpl. rewrite bool_decide_false by done. by destruct c.
Qed.

Lemma elem_of_unaffected_of B l u :
  u ∈ unaffected_of h B l ↔ u ∈ l ∧ lookup h B u = Some u.
Proof.
  unfold unaffected_of, isDeepStrictEqual.
  rewrite (list_elem_of_In _ u), List.filter_In, <- list_elem_of_In.
  destruct (lookup h B u) as [b|].
  - rewrite bool_decide_eq_true.
    split; (intros [? ?]; split; [done|congruence]).
  - split; intros [_ ?]; done.
Qed.

(** Every member of the after set lands in one of three sequences. *)
Lemma classes_of_after B l :
  added_of h B l ++ (after <$> changed_of h B l) ++ unaffected_of h B l ≡ₚ l.
Proof.
  unfold added_of, changed_of, unaffected_of.
  induction l as [|a l IH]; [done|]. csimpl.
  destruct (lookup h B a) as [b|]; csimpl.
  - destruct (isDeepStrictEqual b a); csimpl.
    + rewrite <- !Permutation_middle. by f_equiv.
    + rewrite <- Permutation_middle. by f_equiv.
  - by f_equiv.
Qed.

Lemma changed_same_identity B l :
  h <$> (before <$> changed_of h B l) = h <$> (after <$> changed_of h B l).
Proof.
  rewrite <- !list_fmap_compose. apply list_fmap_ext.
  intros i c Hc. apply list_elem_of_lookup_2, elem_of_changed_of in Hc.
  destruct Hc as (_ & Hc & _). by apply lookup_Some in Hc as [_ ?].
Qed.

Section Partition.
Context (B A : list value).
Context (HB : NoDup (h <$> B)) (HA : NoDup (h <$> A)).

Lemma identities_of_deleted k :
  k ∈ h <$> without h (h <$> A) B ↔ k ∈ h <$> B ∧ k ∉ h <$> A.
Proof.
  rewrite !list_elem_of_fmap. setoid_rewrite elem_of_without. split.
  - intros (b & -> & Hb & Hout). split; [by exists b|].
    by rewrite list_elem_of_fmap in Hout.
  - intros [(b & -> & Hb) Hout]. exists b.
    by rewrite list_elem_of_fmap.
Qed.

Lemma identities_perm :
  h <$> (added_of h B A ++ without h (h <$> A) B
         ++ (after <$> changed_of h B A) ++ unaffected_of h B A)
  ≡ₚ (h <$> A) ++ (h <$> without h (h <$> A) B).
Proof.
  rewrite <- fmap_app. f_equiv.
  rewrite <- (classes_of_after B A) at 5.
  rewrite (Permutation_app_comm (without h _ _)).
  by rewrite <- !app_assoc.
Qed.

Lemma identities_NoDup :
  NoDup (h <$> (added_of h B A ++ without h (h <$> A) B
                ++ (after <$> changed_of h B A) ++ unaffected_of h B A)).
Proof.
  rewrite identities_perm. apply NoDup_app. split_and!; [done| |].
  - intros k Hk Hd. apply identities_of_deleted in Hd. tauto.
  - eapply sublist_NoDup; [exact HB|].
    apply fmap_sublist, sublist_List_filter.
Qed.

Lemma identities_cover k :
  k ∈ h <$> (added_of h B A ++ without h (h <$> A) B
             ++ (after <$> changed_of h B A) ++ unaffected_of h B A)
  ↔ k ∈ h <$> A ∨ k ∈ h <$> B.
Proof.
  rewrite identities_perm, elem_of_app, identities_of_deleted.
  destruct (decide (k ∈ h <$> A)); tauto.
Qed.

Lemma classes_of_before :
  without h (h <$> A) B ++ (before <$> changed_of h B A) ++ unaffected_of h B A ≡ₚ B.
Proof.
  apply NoDup_Permutation.
  - apply (NoDup_fmap_1 h). rewrite !fmap_app, changed_same_identity.
    rewrite <- !fmap_app.
    pose proof identities_NoDup as Hnd.
    rewrite fmap_app in Hnd. by apply NoDup_app in Hnd as (_ & _ & Hnd).
  - by apply (NoDup_fmap_1 h).
  - intros b. rewrite !elem_of_app, elem_of_without, elem_of_unaffected_of.
    split.
    + intros [[Hb _]|[Hc|[_ Hb]]]; [done| |by eapply lookup_Some].
      apply list_elem_of_fmap in Hc as (c & -> & Hc).
      apply elem_of_changed_of in Hc as (_ & Hc & _).
      by eapply lookup_Some.
    + intros Hb. destruct (decide (h b ∈ h <$> A)) as [Hin|Hout]; [|tauto].
      right. apply list_elem_of_fmap in Hin as (a & Heq & Ha).
      assert (Hl : lookup h B a = Some b) by by apply lookup_unique.
      destruct (decide (b = a)) as [->|Hne]; [tauto|].
      left. apply list_elem_of_fmap. exists (Change b a).
      split; [done|]. by apply elem_of_changed_of.
Qed.

End Partition.

End MapDiffFacts.

(** The two loops of [diffMapsConsuming] on sets of one resource type. *)
Section Loops.
Context (ty : rtype).
Abbreviation h := (identity ty).

Lemma get_make B a : HashSet.get (HashSet.make ty B) a = lookup h B a.
Proof. reflexivity. Qed.

Lemma delete_make B a :
  HashSet.delete (HashSet.make ty B) a = HashSet.make ty (without h [h a] B).
Proof.
  unfold HashSet.delete, without, HashSet.same, HashSet.hash. simpl. f_equal.
  apply List.filter_ext. intros r.
  rewrite <- bool_decide_not. apply bool_decide_ext.
  rewrite list_elem_of_singleton. reflexivity.
Qed.

(** The loop over [after.values()]. *)
Lemma classify_loop l B A acc :
  NoDup (h <$> l) →
  foldl classify (HashSet.make ty B, HashSet.make ty A, acc) l
  = (HashSet.make ty (without h (h <$> l) B),
     HashSet.make ty (without h (h <$> l) A),
     MapDiff.make (MapDiff.added acc ++ added_of h B l) (MapDiff.deleted acc)
                  (MapDiff.changed acc ++ changed_of h B l)
                  (MapDiff.unaffected acc ++ unaffected_of h B l)).
Proof.
  revert B A acc. induction l as [|a l IH]; intros B A acc Hnd.
  - destruct acc. simpl. by rewrite !without_nil, !app_nil_r.
  - apply NoDup_cons in Hnd as [Ha Hnd].
    assert (Hext : ∀ a', a' ∈ l →
              lookup h (without h [h a] B) a' = lookup h B a').
    { intros a' Ha'. apply lookup_without. intros Heq. apply Ha.
      rewrite <- Heq. by apply list_elem_of_fmap_2. }
    apply classification_ext in Hext as (E1 & E2 & E3).
    cbn [foldl]. unfold classify at 2.
    rewrite get_make, !delete_make.
    unfold added_of, changed_of, unaffected_of. cbn [List.filter omap list_omap].
    fold (added_of h B l) (changed_of h B l) (unaffected_of h B l).
    destruct (lookup h B a) as [b|] eqn:Hb; simpl.
    + destruct (isDeepStrictEqual b a) eqn:Hd; simpl;
        rewrite IH by done; simpl;
        rewrite !without_without, E1, E2, E3, <- ?app_assoc; reflexivity.
    + rewrite IH by done; simpl.
      rewrite !without_without, E1, E2, E3, <- ?app_assoc; reflexivity.
Qed.

(** The loop over [before.values()]. *)
Lemma drain_loop l B A acc :
  foldl drain (HashSet.make ty B, A, acc) l
  = (HashSet.make ty (without h (h <$> l) B), A,
     MapDiff.make (MapDiff.added acc) (MapDiff.deleted acc ++ l)
                  (MapDiff.changed acc) (MapDiff.unaffected acc)).
Proof.
  revert B acc. induction l as [|b l IH]; intros B acc.
  - destruct acc. simpl. by rewrite without_nil, app_nil_r.
  - cbn [foldl]. unfold drain at 2. rewrite delete_make, IH. simpl.
    by rewrite without_without, <- app_assoc.
Qed.

(** [diffMapsConsuming] in closed form; both sets end up empty. *)
Lemma diffMapsConsuming_closed B A :
  NoDup (h <$> A) →
  diffMapsConsuming (HashSet.make ty B) (HashSet.make ty A)
  = (HashSet.make ty [], HashSet.make ty [],
     MapDiff.make (added_of h B A) (without h (h <$> A) B) (changed_of h B A)
                  (unaffected_of h B A)).
Proof.
  intros Hnd. unfold diffMapsConsuming, HashSet.values. simpl.
  rewrite classify_loop by done. simpl.
  rewrite drain_loop. simpl.
  by rewrite !without_self.
Qed.

End Loops.

Lemma exactly_one_of_NoDup {A} (l1 l2 l3 : list A) x :
  NoDup (l1 ++ l2 ++ l3) → x ∈ l1 ++ l2 ++ l3 →
  exactly_one (x ∈ l1) (x ∈ l2) (x ∈ l3).
Proof.
  intros Hnd Hx. apply NoDup_app in Hnd as (_ & H1 & Hnd).
  apply NoDup_app in Hnd as (_ & H2 & _).
  setoid_rewrite elem_of_app in H1.
  unfold exactly_one. rewrite !elem_of_app in Hx.
  destruct Hx as [X1|[X2|X3]].
  - left. specialize (H1 x X1). tauto.
  - right; left. split_and!; [|done|by apply H2].
    intros X1. specialize (H1 x X1). tauto.
  - right; right. split_and!; [| |done].
    + intros X1. specialize (H1 x X1). tauto.
    + intros X2. by apply (H2 x).
Qed.

Lemma diffMapsConsuming_partitions ty B A :
  NoDup (identity ty <$> B) → NoDup (identity ty <$> A) →
  partitions (identity ty) B A
    (diffMapsConsuming (HashSet.make ty B) (HashSet.make ty A)).2.
Proof.
  intros HB HA. rewrite diffMapsConsuming_closed by done.
  unfold partitions. cbn [snd MapDiff.added MapDiff.deleted MapDiff.changed
                           MapDiff.unaffected].
  pose proof (classes_of_after (identity ty) B A) as PA.
  pose proof (classes_of_before (identity ty) B A HB HA) as PB.
  split_and!; [| |done|done|by apply identities_NoDup|by apply identities_cover].
  - intros a Ha. apply exactly_one_of_NoDup.
    + rewrite PA. by apply (NoDup_fmap_1 (identity ty)).
    + by rewrite PA.
  - intros b Hb. apply exactly_one_of_NoDup.
    + rewrite PB. by apply (NoDup_fmap_1 (identity ty)).
    + by rewrite PB.
Qed.

Lemma added_of_without h B A : added_of h B A = without h (h <$> B) A.
Proof.
  unfold added_of, without. apply List.filter_ext. intros a.
  apply bool_decide_ext, lookup_None.
Qed.

Lemma all_unaffected h B l :
  (∀ a, a ∈ l → lookup h B a = Some a) →
  changed_of h B l = [] ∧ unaffected_of h B l = l.
Proof.
  unfold changed_of, unaffected_of, isDeepStrictEqual.
  induction l as [|a l IH]; intros Hl; [done|]. csimpl.
  destruct IH as [IH1 IH2]; [intros; apply Hl; by right|].
  rewrite Hl by left. csimpl. rewrite bool_decide_true by done.
  by rewrite IH1, IH2.
Qed.

Lemma diffMapsConsuming_self ty A :
  NoDup (identity ty <$> A) →
  (diffMapsConsuming (HashSet.make ty A) (HashSet.make ty A)).2
  = MapDiff.make [] [] [] A.
Proof.
  intros HA. rewrite diffMapsConsuming_closed by done. cbn [snd].
  destruct (all_unaffected (identity ty) A A) as [-> ->];
    [intros a Ha; by apply lookup_unique|].
  by rewrite added_of_without, without_self.
Qed.

(** ** The index *)

Lemma put_identities h item l k :
  k ∈ h <$> HashSet.put h item l ↔ k = h item ∨ k ∈ h <$> l.
Proof.
  induction l as [|r l IH]; cbn [HashSet.put].
  - rewrite list_fmap_singleton, list_elem_of_singleton, fmap_nil.
    split; [tauto|]. intros [?|H]; [done|]. by apply elem_of_nil in H.
  - case_bool_decide as Hr; rewrite !fmap_cons, !elem_of_cons.
    + rewrite Hr. tauto.
    + rewrite IH. tauto.
Qed.

Lemma put_NoDup h item l :
  NoDup (h <$> l) → NoDup (h <$> HashSet.put h item l).
Proof.
  induction l as [|r l IH]; cbn [HashSet.put]; intros Hnd.
  - apply NoDup_singleton.
  - rewrite fmap_cons in Hnd. apply NoDup_cons in Hnd as [Hr Hnd].
    case_bool_decide as Heq; rewrite fmap_cons; apply NoDup_cons.
    + by rewrite <- Heq.
    + split; [|by apply IH]. rewrite put_identities. intros [?|?]; by auto.
Qed.

Lemma put_members h item l r :
  r ∈ HashSet.put h item l → r = item ∨ r ∈ l.
Proof.
  induction l as [|r' l IH]; cbn [HashSet.put].
  - rewrite list_elem_of_singleton. tauto.
  - case_bool_decide; rewrite !elem_of_cons; [tauto|].
    intros [?|Hr]; [tauto|]. apply IH in Hr. tauto.
Qed.

Lemma insertAll_indexes ig ty records seen s s' :
  indexes ig ty seen s →
  Index.insertAll ig ty records s = Ok s' →
  indexes ig ty (seen ++ records) s'.
Proof.
  revert seen s. induction records as [|r rest IH]; intros seen s Hs; simpl.
  - intros [= <-]. by rewrite app_nil_r.
  - destruct (has_identity ty r); [|done]. intros Hrest.
    rewrite cons_middle, (assoc_L (++)). eapply IH; [|exact Hrest].
    destruct Hs as (Hh & Hwf & Hmem & Hids).
    destruct (Index.ignored ig ty r) eqn:Hig.
    + split_and!; [done|done| |].
      * intros x Hx. apply elem_of_app. left. by apply Hmem.
      * intros k. rewrite Hids. split.
        -- intros (x & Hx & ? & ?). exists x. rewrite elem_of_app. tauto.
        -- intros (x & Hx & Hx1 & Hx2). exists x. split; [|done].
           apply elem_of_app in Hx as [?|Hx]; [done|].
           apply list_elem_of_singleton in Hx as ->. congruence.
    + unfold HashSet.wf, HashSet.add, HashSet.hash in *.
      cbn [HashSet.kind HashSet.members]. rewrite Hh in *.
      split_and!; [done|by apply put_NoDup| |].
      * intros x Hx. rewrite elem_of_app, list_elem_of_singleton.
        cbn [HashSet.members] in Hx.
        apply put_members in Hx as [?|?]; [tauto|]. left. by apply Hmem.
      * intros k. cbn [HashSet.members]. rewrite put_identities, Hids. split.
        -- intros [->|(x & Hx & ? & ?)].
           ++ exists r. rewrite elem_of_app, list_elem_of_singleton. tauto.
           ++ exists x. rewrite elem_of_app. tauto.
        -- intros (x & Hx & Hx1 & Hx2).
           apply elem_of_app in Hx as [?|Hx]; [right; by exists x|].
           apply list_elem_of_singleton in Hx as ->. by left.
Qed.

Lemma build_indexes ig d ty s :
  Index.build ig d ty = Ok s → indexes ig ty (Index.section d ty) s.
Proof.
  intros Hs. apply (insertAll_indexes ig ty _ [] _ _) in Hs; [done|].
  split_and!; [done|apply NoDup_nil_2| |].
  - intros r Hr. by apply elem_of_nil in Hr.
  - intros k. split; [intros Hk; by apply elem_of_nil in Hk|].
    intros (r & Hr & _). by apply elem_of_nil in Hr.
Qed.

Lemma fromDefinitions_build d b ig idx ty :
  Index.fromDefinitions d b ig = Ok idx →
  Index.build ig d ty = Ok (Index.collection idx ty).
Proof.
  unfold Index.fromDefinitions.
  destruct (Index.build ig d Vhosts) eqn:E1; [|done]; cbn [obind].
  destruct (Index.build ig d Queues) eqn:E2; [|done]; cbn [obind].
  destruct (Index.build ig d Exchanges) eqn:E3; [|done]; cbn [obind].
  destruct (Index.build ig d Bindings) eqn:E4; [|done]; cbn [obind].
  destruct (Index.build ig d Users) eqn:E5; [|done]; cbn [obind].
  destruct (Index.build ig d Permissions) eqn:E6; [|done]; cbn [obind].
  destruct (Index.build ig d TopicPermissions) eqn:E7; [|done]; cbn [obind].
  intros [= <-]. by destruct ty.
Qed.

Lemma fromDefinitions_indexes d b ig idx ty :
  Index.fromDefinitions d b ig = Ok idx →
  indexes ig ty (Index.section d ty) (Index.collection idx ty).
Proof. intros H. eapply build_indexes, fromDefinitions_build, H. Qed.

(** A collection of a built index is a set keyed by the identity of its
    type, with unique identities. *)
Lemma collection_shape ig ty records s :
  indexes ig ty records s →
  s = HashSet.make ty (HashSet.values s)
  ∧ NoDup (identity ty <$> HashSet.values s).
Proof.
  intros (Hh & Hwf & _). unfold HashSet.wf, HashSet.hash in Hwf.
  destruct s as [k m]. simpl in *. by subst.
Qed.

(** ** All resource types *)

Lemma changeMap_ext {A} (m1 m2 : changeMap A) :
  (∀ ty, at_key m1 ty = at_key m2 ty) → m1 = m2.
Proof.
  intros H. destruct m1, m2.
  pose proof (H Vhosts). pose proof (H Queues). pose proof (H Exchanges).
  pose proof (H Bindings). pose proof (H Users). pose proof (H Permissions).
  pose proof (H TopicPermissions). simpl in *. by subst.
Qed.

Lemma collectAll_classes before after ty :
  classes (collectAll before after).1 ty
  = (diffMapsConsuming (Index.collection before ty) (Index.collection after ty)).2.
Proof.
  unfold classes.
  destruct (diffMapsConsuming (Index.collection before ty)
                              (Index.collection after ty)).2 eqn:E.
  destruct ty; cbn in *; by rewrite E.
Qed.

Lemma collectAll_implicitlyAffected before after :
  (collectAll before after).2
  = List.filter
      (implicitlyAffected_by (exchanges (c_changed (collectAll before after).1))
                             (queues (c_changed (collectAll before after).1)))
      (bindings (c_unaffected (collectAll before after).1)).
Proof. reflexivity. Qed.

Lemma diffLocals_inv beforeDef afterDef ignoreList l :
  diffLocals beforeDef afterDef ignoreList = Ok l →
  Index.fromDefinitions beforeDef false (ignoreIndexOf ignoreList) = Ok (l_before l)
  ∧ Index.fromDefinitions afterDef false (ignoreIndexOf ignoreList) = Ok (l_after l)
  ∧ l_collected l = (collectAll (l_before l) (l_after l)).1
  ∧ l_implicitlyAffectedBindings l = (collectAll (l_before l) (l_after l)).2.
Proof.
  unfold diffLocals.
  destruct (Index.fromDefinitions beforeDef _ _) as [bi|]; [|done].
  destruct (Index.fromDefinitions afterDef _ _) as [ai|]; [|done].
  cbn [obind]. destruct (collectAll bi ai) as [c ia] eqn:E.
  intros [= <-]. cbn [l_before l_after l_collected l_implicitlyAffectedBindings].
  by rewrite E.
Qed.

Lemma diff_of_locals beforeDef afterDef ignoreList l :
  diffLocals beforeDef afterDef ignoreList = Ok l →
  diff beforeDef afterDef ignoreList
  = Ok (Diff.make (c_added (l_collected l)) (c_deleted (l_collected l))
                  (c_changed (l_collected l)) (l_implicitlyAffectedBindings l)).
Proof. intros H. unfold diff. by rewrite H. Qed.

Lemma locals_of_diff beforeDef afterDef ignoreList r :
  diff beforeDef afterDef ignoreList = Ok r →
  ∃ l, diffLocals beforeDef afterDef ignoreList = Ok l
       ∧ r = Diff.make (c_added (l_collected l)) (c_deleted (l_collected l))
                       (c_changed (l_collected l))
                       (l_implicitlyAffectedBindings l).
Proof.
  unfold diff. destruct (diffLocals _ _ _) as [l|]; [|done].
  intros [= <-]. by exists l.
Qed.

(** The sequences of one type are those of [diffMapsConsuming] on the two
    collections of that type, which are well-formed sets. *)
Lemma diffLocals_classes beforeDef afterDef ignoreList l ty :
  diffLocals beforeDef afterDef ignoreList = Ok l →
  let h := identity ty in
  let B := HashSet.values (Index.collection (l_before l) ty) in
  let A := HashSet.values (Index.collection (l_after l) ty) in
  NoDup (h <$> B) ∧ NoDup (h <$> A)
  ∧ classes (l_collected l) ty
    = (diffMapsConsuming (HashSet.make ty B) (HashSet.make ty A)).2.
Proof.
  intros (Hb & Ha & Hc & _)%diffLocals_inv. simpl.
  apply (fromDefinitions_indexes _ _ _ _ ty), collection_shape in Hb as [Hb ?].
  apply (fromDefinitions_indexes _ _ _ _ ty), collection_shape in Ha as [Ha ?].
  split_and!; [done..|].
  by rewrite Hc, collectAll_classes, Hb, Ha at 1.
Qed.

Lemma diffLocals_partitions beforeDef afterDef ignoreList l ty :
  diffLocals beforeDef afterDef ignoreList = Ok l →
  partitions (identity ty)
    (HashSet.values (Index.collection (l_before l) ty))
    (HashSet.values (Index.collection (l_after l) ty))
    (classes (l_collected l) ty).
Proof.
  intros Hl. destruct (diffLocals_classes _ _ _ _ ty Hl) as (HB & HA & ->).
  by apply diffMapsConsuming_partitions.
Qed.

(** The diff engine never fails on records that carry their identity
    fields. *)
Lemma insertAll_returns ig ty records s :
  Forall (λ r, has_identity ty r = true) records →
  ∃ s', Index.insertAll ig ty records s = Ok s'.
Proof.
  intros H. revert s. induction H as [|r rest Hr _ IH]; intros s; simpl.
  - by exists s.
  - rewrite Hr. apply IH.
Qed.

Lemma fromDefinitions_returns d b ig :
  (∀ ty, Forall (λ r, has_identity ty r = true) (Index.section d ty)) →
  ∃ idx, Index.fromDefinitions d b ig = Ok idx.
Proof.
  intros H. unfold Index.fromDefinitions, Index.build.
  destruct (insertAll_returns ig Vhosts _ (HashSet.empty Vhosts)
              (H Vhosts)) as [? ->].
  destruct (insertAll_returns ig Queues _ (HashSet.empty Queues)
              (H Queues)) as [? ->].
  destruct (insertAll_returns ig Exchanges _
              (HashSet.empty Exchanges) (H Exchanges)) as [? ->].
  destruct (insertAll_returns ig Bindings _
              (HashSet.empty Bindings) (H Bindings)) as [? ->].
  destruct (insertAll_returns ig Users _ (HashSet.empty Users)
              (H Users)) as [? ->].
  destruct (insertAll_returns ig Permissions _
              (HashSet.empty Permissions) (H Permissions))
    as [? ->].
  destruct (insertAll_returns ig TopicPermissions _
              (HashSet.empty TopicPermissions)
              (H TopicPermissions)) as [? ->].
  cbn [obind]. by eexists.
Qed.

Lemma diff_returns beforeDef afterDef ignoreList :
  (∀ ty, Forall (λ r, has_identity ty r = true)
                (Index.section beforeDef ty ++ Index.section afterDef ty)) →
  ∃ l, diffLocals beforeDef afterDef ignoreList = Ok l.
Proof.
  intros H. unfold diffLocals.
  destruct (fromDefinitions_returns beforeDef false (ignoreIndexOf ignoreList))
    as [bi ->]; [intros ty; specialize (H ty); by apply Forall_app in H as [? _]|].
  destruct (fromDefinitions_returns afterDef false (ignoreIndexOf ignoreList))
    as [ai ->]; [intros ty; specialize (H ty); by apply Forall_app in H as [_ ?]|].
  cbn [obind]. destruct (collectAll bi ai). by eexists.
Qed.

(** ** The diff of two snapshots *)

Example diffLocals_snapshots :
  diffLocals snapshot_before snapshot_after None = Ok snapshot_locals.
Proof. compute_done. Qed.

Example diff_snapshots :
  diff snapshot_before snapshot_after None = Ok snapshot_diff.
Proof. compute_done. Qed.

(** C1 (diff completeness).  For every before/after pair on which [diff]
    returns and every resource type: each member of the after set is in
    exactly one of added, changed, unaffected; each member of the before set
    is in exactly one of deleted, changed, unaffected; nothing is dropped or
    repeated; the identities of the four sequences are pairwise distinct and
    are exactly the identities of the two sets.  The sets hold the records
    of the definitions that are not ignored, one per identity. *)
Theorem diff_completeness beforeDef afterDef ignoreList l ty :
  diffLocals beforeDef afterDef ignoreList = Ok l →
  let c := l_collected l in
  diff beforeDef afterDef ignoreList
  = Ok (Diff.make (c_added c) (c_deleted c) (c_changed c)
                  (l_implicitlyAffectedBindings l))
  ∧ partitions (identity ty)
      (HashSet.values (Index.collection (l_before l) ty))
      (HashSet.values (Index.collection (l_after l) ty))
      (classes c ty)
  ∧ indexes (ignoreIndexOf ignoreList) ty (Index.section beforeDef ty)
      (Index.collection (l_before l) ty)
  ∧ indexes (ignoreIndexOf ignoreList) ty (Index.section afterDef ty)
      (Index.collection (l_after l) ty).
Proof.
  intros Hl c. split; [by apply diff_of_locals|]. subst c.
  split; [by eapply diffLocals_partitions|].
  apply diffLocals_inv in Hl as (Hb & Ha & _).
  split; by apply fromDefinitions_indexes with false.
Qed.

Lemma diff_completeness_witness :
  partitions (identity Vhosts)
    [vhost_named "/"; vhost_named "old"] [vhost_named "/"; vhost_named "new"]
    (MapDiff.make [vhost_named "new"] [vhost_named "old"] [] [vhost_named "/"]).
Proof.
  exact (proj1 (proj2 (diff_completeness snapshot_before snapshot_after None
                         snapshot_locals Vhosts ltac:(compute_done)))).
Defined.

(** With nothing changed, no binding is implicitly affected. *)
Lemma implicitlyAffected_by_nothing binding :
  implicitlyAffected_by [] [] binding = false.
Proof.
  unfold implicitlyAffected_by. cbn [existsb].
  by destruct (negb (strict_eq _ _)).
Qed.

(** C2 (idempotence).  Diffing a snapshot against itself, when [diff]
    returns, yields empty added, deleted and changed sequences for every
    resource type and no implicitly affected binding; the unaffected
    sequence of each type is the whole indexed set, which holds the identity
    of every record of the snapshot that is not ignored. *)
Theorem diff_idempotence X ignoreList l :
  diffLocals X X ignoreList = Ok l →
  diff X X ignoreList = Ok (Diff.make makeChangeMap makeChangeMap makeChangeMap [])
  ∧ ∀ ty,
      classes (l_collected l) ty
      = MapDiff.make [] [] [] (HashSet.values (Index.collection (l_after l) ty))
      ∧ ∀ r, r ∈ Index.section X ty →
             Index.ignored (ignoreIndexOf ignoreList) ty r = false →
             identity ty r
             ∈ identity ty <$> at_key (c_unaffected (l_collected l)) ty.
Proof.
  intros Hl.
  assert (Hty : ∀ ty, classes (l_collected l) ty
    = MapDiff.make [] [] [] (HashSet.values (Index.collection (l_after l) ty))).
  { intros ty. destruct (diffLocals_classes _ _ _ _ ty Hl) as (_ & HA & ->).
    apply diffLocals_inv in Hl as (Hb & Ha & _).
    rewrite Hb in Ha. injection Ha as ->.
    by apply diffMapsConsuming_self. }
  split.
  - rewrite (diff_of_locals _ _ _ _ Hl).
    assert (c_added (l_collected l) = makeChangeMap) as ->.
    { apply changeMap_ext. intros ty.
      transitivity (MapDiff.added (classes (l_collected l) ty)); [done|].
      rewrite Hty. by destruct ty. }
    assert (c_deleted (l_collected l) = makeChangeMap) as ->.
    { apply changeMap_ext. intros ty.
      transitivity (MapDiff.deleted (classes (l_collected l) ty)); [done|].
      rewrite Hty. by destruct ty. }
    assert (Hch : c_changed (l_collected l) = makeChangeMap).
    { apply changeMap_ext. intros ty.
      transitivity (MapDiff.changed (classes (l_collected l) ty)); [done|].
      rewrite Hty. by destruct ty. }
    rewrite Hch. do 2 f_equal.
    apply diffLocals_inv in Hl as (_ & _ & Hc & ->).
    rewrite collectAll_implicitlyAffected, <- Hc, Hch. cbn [exchanges queues makeChangeMap].
    induction (bindings _) as [|b bs IH]; [done|]. cbn [List.filter].
    by rewrite implicitlyAffected_by_nothing.
  - intros ty. split; [done|]. intros r Hr Hig.
    change (at_key (c_unaffected (l_collected l)) ty)
      with (MapDiff.unaffected (classes (l_collected l) ty)).
    rewrite Hty. cbn [MapDiff.unaffected].
    apply diffLocals_inv in Hl as (_ & Ha & _).
    apply (fromDefinitions_indexes _ _ _ _ ty) in Ha as (_ & _ & _ & Hids).
    apply Hids. by exists r.
Qed.

Lemma diff_idempotence_witness :
  diff snapshot_before snapshot_before None
  = Ok (Diff.make makeChangeMap makeChangeMap makeChangeMap []).
Proof.
  exact (proj1 (diff_idempotence snapshot_before None snapshot_before_locals
                  ltac:(compute_done))).
Defined.

(** Both directions of a diff return together. *)
Lemma diffLocals_reverse X Y ignoreList l :
  diffLocals X Y ignoreList = Ok l →
  ∃ l', diffLocals Y X ignoreList = Ok l'
        ∧ l_before l' = l_after l ∧ l_after l' = l_before l.
Proof.
  intros (Hx & Hy & _)%diffLocals_inv. unfold diffLocals.
  rewrite Hy, Hx. cbn [obind].
  destruct (collectAll (l_after l) (l_before l)) as [c ia]. by eexists.
Qed.

Lemma added_is_deleted_reversed X Y ignoreList l1 l2 ty :
  diffLocals X Y ignoreList = Ok l1 →
  diffLocals Y X ignoreList = Ok l2 →
  at_key (c_added (l_collected l1)) ty = at_key (c_deleted (l_collected l2)) ty
  ∧ at_key (c_deleted (l_collected l1)) ty = at_key (c_added (l_collected l2)) ty.
Proof.
  intros H1 H2.
  destruct (diffLocals_classes _ _ _ _ ty H1) as (HB1 & HA1 & E1).
  destruct (diffLocals_classes _ _ _ _ ty H2) as (HB2 & HA2 & E2).
  apply diffLocals_inv in H1 as (Hx1 & Hy1 & _).
  apply diffLocals_inv in H2 as (Hy2 & Hx2 & _).
  rewrite Hx1 in Hx2. injection Hx2 as Hx. rewrite Hy1 in Hy2.
  injection Hy2 as Hy. rewrite <- Hx, <- Hy in *.
  rewrite diffMapsConsuming_closed in E1, E2 by done.
  change (at_key (c_added (l_collected l1)) ty)
    with (MapDiff.added (classes (l_collected l1) ty)).
  change (at_key (c_deleted (l_collected l1)) ty)
    with (MapDiff.deleted (classes (l_collected l1) ty)).
  change (at_key (c_added (l_collected l2)) ty)
    with (MapDiff.added (classes (l_collected l2) ty)).
  change (at_key (c_deleted (l_collected l2)) ty)
    with (MapDiff.deleted (classes (l_collected l2) ty)).
  rewrite E1, E2. cbn [snd MapDiff.added MapDiff.deleted].
  by rewrite !added_of_without.
Qed.

(** C3 (symmetry of structure).  When [diff X Y] returns, so does
    [diff Y X]; what the first reports added is, record for record and in
    the same order, what the second reports deleted, and the other way
    round, for every resource type. *)
Theorem diff_symmetry X Y ignoreList r1 :
  diff X Y ignoreList = Ok r1 →
  ∃ r2,
    diff Y X ignoreList = Ok r2
    ∧ Diff.added r1 = Diff.deleted r2
    ∧ Diff.deleted r1 = Diff.added r2
    ∧ ∀ ty, at_key (Diff.added r1) ty = at_key (Diff.deleted r2) ty
            ∧ at_key (Diff.deleted r1) ty = at_key (Diff.added r2) ty.
Proof.
  intros (l1 & H1 & ->)%locals_of_diff.
  destruct (diffLocals_reverse _ _ _ _ H1) as (l2 & H2 & _).
  eexists. split; [by apply diff_of_locals|].
  cbn [Diff.added Diff.deleted].
  pose proof (λ ty, added_is_deleted_reversed X Y ignoreList l1 l2 ty H1 H2)
    as Hty.
  split_and!; [| |exact Hty]; apply changeMap_ext; intros ty;
    by destruct (Hty ty).
Qed.

Lemma diff_symmetry_witness :
  ∃ r2,
    diff snapshot_after snapshot_before None = Ok r2
    ∧ Diff.added snapshot_diff = Diff.deleted r2
    ∧ Diff.deleted snapshot_diff = Diff.added r2.
Proof.
  destruct (diff_symmetry snapshot_before snapshot_after None snapshot_diff
              ltac:(compute_done)) as (r2 & Hr & Ha & Hd & _).
  exists r2. split_and!; [exact Hr|exact Ha|exact Hd].
Defined.





(** C10.  When [diff] returns, the implicitly affected bindings are a
    sub-sequence of the bindings classified unaffected, without repetition,
    and none of them is a binding classified added, deleted or changed
    (neither the before nor the after record of a changed pair). *)
Theorem implicitlyAffected_within_unaffected beforeDef afterDef ignoreList l :
  diffLocals beforeDef afterDef ignoreList = Ok l →
  let c := l_collected l in
  diff beforeDef afterDef ignoreList
  = Ok (Diff.make (c_added c) (c_deleted c) (c_changed c)
                  (l_implicitlyAffectedBindings l))
  ∧ l_implicitlyAffectedBindings l `sublist_of` bindings (c_unaffected c)
  ∧ NoDup (l_implicitlyAffectedBindings l)
  ∧ ∀ binding, binding ∈ l_implicitlyAffectedBindings l →
      (binding ∉ bindings (c_added c))
      ∧ (binding ∉ bindings (c_deleted c))
      ∧ (binding ∉ before <$> bindings (c_changed c))
      ∧ (binding ∉ after <$> bindings (c_changed c)).
Proof.
  intros Hl c. split; [by apply diff_of_locals|].
  destruct (diffLocals_partitions _ _ _ _ Bindings Hl)
    as (HA & HB & PA & PB & Hnd & _).
  cbn [classes MapDiff.added MapDiff.deleted MapDiff.changed MapDiff.unaffected
       at_key] in *. fold c in HA, HB, PA, PB, Hnd.
  assert (Hsub : l_implicitlyAffectedBindings l `sublist_of` bindings (c_unaffected c)).
  { apply diffLocals_inv in Hl as (_ & _ & Hc & ->).
    rewrite collectAll_implicitlyAffected, <- Hc. apply sublist_List_filter. }
  split; [exact Hsub|]. split.
  - eapply sublist_NoDup; [|exact Hsub].
    apply NoDup_fmap_1 in Hnd. rewrite !NoDup_app in Hnd. tauto.
  - intros binding Hin.
    assert (Hu : binding ∈ bindings (c_unaffected c))
      by (eapply elem_of_sublist; [exact Hin|exact Hsub]).
    assert (Ha : binding ∈ HashSet.values (Index.collection (l_after l) Bindings))
      by (rewrite <- PA, !elem_of_app; tauto).
    assert (Hb : binding ∈ HashSet.values (Index.collection (l_before l) Bindings))
      by (rewrite <- PB, !elem_of_app; tauto).
    specialize (HA _ Ha). specialize (HB _ Hb).
    unfold exactly_one in HA, HB. tauto.
Qed.

Lemma implicitlyAffected_within_unaffected_witness :
  [ex1_to_q1] `sublist_of` [ex1_to_q1] ∧ NoDup [ex1_to_q1].
Proof.
  destruct (implicitlyAffected_within_unaffected snapshot_before snapshot_after
              None snapshot_locals ltac:(compute_done))
    as (_ & Hs & Hn & _).
  exact (conj Hs Hn).
Defined.

(** * Properties of the deployment planner *)

Example url_queue :
  url ["/api/queues/"; "/"; ""] [Some (VStr "/"); Some (VStr "my queue")]
  = "/api/queues/%2F/my%20queue".
Proof. reflexivity. Qed.

Lemma append_assoc (a b c : string) : (a +:+ b) +:+ c = a +:+ b +:+ c.
Proof.
  induction a as [|x a IH]; [done|].
  change (String x ((a +:+ b) +:+ c) = String x (a +:+ b +:+ c)).
  by rewrite IH.
Qed.

Lemma report_counts operation operationOverride type result succeeded :
  report operation operationOverride type result succeeded
  = label operation operationOverride +:+ pretty succeeded +:+ " "
    +:+ type_name type +:+ failedNotice result succeeded.
Proof.
  unfold report, label.
  destruct operation, operationOverride as [[]|];
    first [reflexivity|by rewrite append_assoc].
Qed.

Lemma filter_lengths {A} (f : A → bool) (l : list A) :
  length (List.filter f l) + length (List.filter (λ x, negb (f x)) l) = length l.
Proof.
  induction l as [|x l IH]; [done|]. cbn [List.filter].
  destruct (f x); simpl; lia.
Qed.

(** The failed notice carries the number of failures, when there are any. *)
Lemma failedNotice_counts (result : list settled) :
  failedNotice (length result) (length (List.filter fulfilled result))
  = if bool_decide (List.filter (λ r, negb (fulfilled r)) result = []) then ""
    else ", " +:+ pretty (length (List.filter (λ r, negb (fulfilled r)) result))
         +:+ " failed".
Proof.
  unfold failedNotice. pose proof (filter_lengths fulfilled result) as Hl.
  destruct (List.filter (λ r, negb (fulfilled r)) result) as [|x rest] eqn:E.
  - simpl in Hl. rewrite bool_decide_false by lia. done.
  - simpl in Hl. rewrite bool_decide_true by lia.
    rewrite (bool_decide_false (_ :: _ = [])) by done.
    do 2 f_equal. simpl. f_equal. lia.
Qed.

Lemma requests_app t1 t2 : requests (t1 ++ t2) = requests t1 ++ requests t2.
Proof. apply List.filter_app. Qed.

Lemma requests_calls op type resources :
  requests (calls op type resources) = calls op type resources.
Proof.
  unfold calls. induction resources as [|r rs IH]; [done|].
  rewrite bind_cons, requests_app, IH. f_equal.
  unfold call. by destruct (C _ _).
Qed.

Section DeployFacts.
Context {Server : Type}.
Context (request : client → Server → method → string → value → Server * settled).
Context (diffServer : client → Server → definitions → option (list value) → Diff.t).

Abbreviation M' := (M (Server := Server)).

Lemma bind_run {A B} (m : M' A) (k : A → M' B) w :
  (m ≫= k) w = match m w with
               | (w', Ok a) => k a w'
               | (w', Throw e) => (w', Throw e)
               end.
Proof. reflexivity. Qed.

Lemma run_plan_app c changes pre post w :
  run_plan request c changes (pre ++ post) w
  = match run_plan request c changes pre w with
    | (w1, Ok _) => run_plan request c changes post w1
    | (w1, Throw e) => (w1, Throw e)
    end.
Proof.
  revert w. induction pre as [|b pre IH]; intros w; [done|].
  cbn [app run_plan]. rewrite !bind_run.
  destruct (run_batch request c changes b w) as [w1 [[]|e]]; [apply IH|done].
Qed.

(** [deploy] is its preflight, its batches in program order, its epilogue. *)
Lemma deploy_as_plan definitions opts w :
  deploy request diffServer definitions opts w
  = (changes ← preflight diffServer definitions opts;
     run_plan request (RabbitClient (dryRun opts)) changes (plan changes opts);;
     epilogue changes opts) w.
Proof.
  unfold deploy, preflight, epilogue, plan, additions.
  destruct (noDeletions opts) eqn:ND, (recreateChanged opts) eqn:RC;
    cbn [andb negb app run_plan]; unfold run_batch, throw, mret, M_ret;
    cbn [b_operation b_type b_override b_filter];
    repeat (cbn beta iota; rewrite ?bind_run;
            match goal with
            | |- context [when ?b ?m ?w] =>
                destruct (when b m w) as [? [[]|?]]; [|done]
            | |- context [deployResources request ?c ?ch ?o ?t ?ov ?f ?w] =>
                destruct (deployResources request c ch o t ov f w) as [? [[]|?]];
                [|done]
            end);
    done.
Qed.

(** Every promise of a batch settles, whatever the others did, and each
    resource with an entry in the table gives exactly its remote call. *)
Lemma allSettled_dispatch c op type resources w :
  ∃ w' result,
    allSettled (dispatch request c op type <$> resources) w = (w', Ok result)
    ∧ length result = length resources
    ∧ trace w' = trace w ++ calls op type resources.
Proof.
  revert w. induction resources as [|r rs IH]; intros w.
  - exists w, []. unfold calls. simpl. by rewrite app_nil_r.
  - cbn [fmap list_fmap allSettled]. rewrite bind_run.
    assert (∃ w1 s, dispatch request c op type r w = (w1, Ok s)
                    ∧ trace w1 = trace w ++ call op type r) as (w1 & s & -> & Ht).
    { unfold dispatch, call. destruct (C op type) as [f| |].
      - destruct (f _) as [m u]. unfold client_request.
        destruct (request c (server w) m u _) as [sv st]. by eexists _, _.
      - eexists _, _. split; [reflexivity|]. by rewrite app_nil_r.
      - eexists _, _. split; [reflexivity|]. by rewrite app_nil_r. }
    destruct (IH w1) as (w2 & result & Hrun & Hlen & Htr).
    rewrite bind_run, Hrun. exists w2, (s :: result).
    split_and!; [done|simpl; by rewrite Hlen|].
    rewrite Htr, Ht. unfold calls. by rewrite bind_cons, app_assoc.
Qed.

(** A batch over a non-empty sequence, step by step. *)
Lemma deployResources_run c changes operation type operationOverride filterFn
    entries w :
  entries_of changes operation type = Some entries →
  entries ≠ [] →
  ∃ w1 result,
    allSettled (dispatch request c (default operation operationOverride) type
                <$> List.filter (kept filterFn) entries) w = (w1, Ok result)
    ∧ deployResources request c changes operation type operationOverride filterFn w
      = (World (server w1)
               (trace w1
                ++ batch_report operation type operationOverride
                     (List.filter (λ r, negb (kept filterFn r)) entries) result),
         verdict result).
Proof.
  intros He Hne.
  destruct (allSettled_dispatch c (default operation operationOverride) type
              (List.filter (kept filterFn) entries) w) as (w1 & result & Hrun & _).
  exists w1, result. split; [done|].
  unfold deployResources. rewrite He, bool_decide_false by done.
  rewrite bind_run, Hrun. unfold batch_report, verdict.
  case_bool_decide; cbn [when];
    unfold emit, throw, mbind, M_bind, mret, M_ret; cbn [server trace app];
    rewrite <- ?app_assoc;
    by destruct (List.filter _ result) as [|[|reason] ?].
Qed.

(** The remote calls of a batch do not depend on how they settle. *)
Lemma run_batch_requests c changes b w :
  requests (trace (run_batch request c changes b w).1)
  = requests (trace w) ++ batch_calls changes b.
Proof.
  unfold run_batch, batch_calls.
  destruct (entries_of changes (b_operation b) (b_type b)) as [entries|] eqn:He.
  - destruct (decide (entries = [])) as [->|Hne].
    + unfold deployResources. rewrite He. by rewrite app_nil_r.
    + destruct (deployResources_run c changes _ _ (b_override b) (b_filter b)
                  entries w He Hne) as (w1 & result & Hrun & ->).
      destruct (allSettled_dispatch c (default (b_operation b) (b_override b))
                  (b_type b) (List.filter (kept (b_filter b)) entries) w)
        as (w1' & result' & Hrun' & _ & Htr).
      rewrite Hrun in Hrun'. injection Hrun' as <- <-.
      cbn [fst trace]. rewrite requests_app, Htr, requests_app.
      rewrite requests_calls.
      unfold batch_report. case_bool_decide; simpl; by rewrite app_nil_r.
  - unfold deployResources. rewrite He. by rewrite app_nil_r.
Qed.

(** The remote calls of a run of batches: those of the batches that ran,
    which are all of them unless one failed. *)
Lemma run_plan_requests c changes bs w :
  ∃ k, k ≤ length bs
       ∧ requests (trace (run_plan request c changes bs w).1)
         = requests (trace w) ++ concat (batch_calls changes <$> take k bs)
       ∧ ((run_plan request c changes bs w).2 = Ok tt → k = length bs).
Proof.
  revert w. induction bs as [|b bs IH]; intros w.
  - exists 0. simpl. by rewrite app_nil_r.
  - cbn [run_plan]. rewrite bind_run.
    pose proof (run_batch_requests c changes b w) as Hb.
    destruct (run_batch request c changes b w) as [w1 [[]|e]]; cbn [fst] in Hb.
    + destruct (IH w1) as (k & Hk & Hreq & Hok). exists (S k).
      split_and!; [simpl; lia| |].
      * rewrite Hreq, Hb. cbn [take fmap list_fmap concat].
        by rewrite app_assoc.
      * intros He. simpl. f_equal. by apply Hok.
    + exists 1. split_and!; [simpl; lia| |done].
      cbn [fst take fmap list_fmap concat]. rewrite Hb, take_0.
      simpl. by rewrite app_nil_r.
Qed.

Lemma preflight_run definitions opts w :
  let changes := diffServer (RabbitClient (dryRun opts)) (server w) definitions
                            (ignoreList opts) in
  preflight diffServer definitions opts w
  = (World (server w) (trace w ++ preflight_warnings opts changes),
     if noDeletions opts && recreateChanged opts then Throw OptionConflict
     else Ok changes).
Proof.
  intros changes. subst changes. unfold preflight, preflight_warnings.
  unfold when, emit, throw, mbind, M_bind, mret, M_ret.
  destruct w as [sv tr].
  destruct (dryRun opts); cbn [server trace];
    match goal with
    | |- context [diffServer ?c sv definitions ?il] =>
        generalize (diffServer c sv definitions il)
    end;
    intros changes;
    destruct (bool_decide (vhosts (Diff.added changes) ≠ [])
              && hasAddedPermissionsForVhosts changes);
    cbn [server trace];
    destruct (noDeletions opts && recreateChanged opts);
    cbn [server trace]; rewrite ?app_nil_r, <- ?app_assoc; try done;
    destruct (bool_decide (changedResourceCount changes ≠ 0)
              && negb (recreateChanged opts));
    cbn [server trace]; by rewrite ?app_nil_r, <- ?app_assoc.
Qed.

Lemma requests_preflight_warnings opts changes :
  requests (preflight_warnings opts changes) = [].
Proof.
  unfold preflight_warnings.
  destruct (dryRun opts),
    (bool_decide (vhosts (Diff.added changes) ≠ [])
     && hasAddedPermissionsForVhosts changes),
    (noDeletions opts && recreateChanged opts),
    (bool_decide (changedResourceCount changes ≠ 0) && negb (recreateChanged opts));
    reflexivity.
Qed.

Lemma epilogue_requests changes opts (w : @world Server) :
  requests (trace (epilogue changes opts w).1) = requests (trace w).
Proof.
  unfold epilogue, when, emit.
  destruct (negb (noDeletions opts)); [done|].
  case_bool_decide; [|done]. cbn [fst trace].
  by rewrite requests_app, app_nil_r.
Qed.

(** The remote calls of a whole run: those of the batches of the plan that
    ran, in program order; all of them when the run returns. *)
Lemma deploy_requests definitions opts w :
  let changes := diffServer (RabbitClient (dryRun opts)) (server w) definitions
                            (ignoreList opts) in
  ∃ k, k ≤ length (plan changes opts)
       ∧ requests (trace (deploy request diffServer definitions opts w).1)
         = requests (trace w)
           ++ concat (batch_calls changes <$> take k (plan changes opts))
       ∧ ((deploy request diffServer definitions opts w).2 = Ok tt →
          k = length (plan changes opts)).
Proof.
  intros changes. rewrite deploy_as_plan, bind_run, preflight_run. fold changes.
  destruct (noDeletions opts && recreateChanged opts).
  - exists 0. cbn [fst snd trace take fmap list_fmap concat].
    rewrite requests_app, requests_preflight_warnings.
    split_and!; [lia|done|done].
  - rewrite bind_run.
    destruct (run_plan_requests (RabbitClient (dryRun opts)) changes
                (plan changes opts)
                (World (server w) (trace w ++ preflight_warnings opts changes)))
      as (k & Hk & Hreq & Hok).
    exists k. split; [done|].
    destruct (run_plan request _ changes (plan changes opts) _) as [w1 [[]|e]];
      cbn [fst snd trace] in *;
      rewrite requests_app, requests_preflight_warnings, app_nil_r in Hreq.
    + rewrite epilogue_requests. split; [done|]. intros _. by apply Hok.
    + split; [done|]. done.
Qed.

(** A failed batch ends the run: nothing of the rest of the plan runs. *)
Lemma deploy_aborts definitions opts w wp changes pre b post w1 w2 e :
  preflight diffServer definitions opts w = (wp, Ok changes) →
  plan changes opts = pre ++ b :: post →
  run_plan request (RabbitClient (dryRun opts)) changes pre wp = (w1, Ok tt) →
  run_batch request (RabbitClient (dryRun opts)) changes b w1 = (w2, Throw e) →
  deploy request diffServer definitions opts w = (w2, Throw e).
Proof.
  intros Hp Hplan Hpre Hb.
  rewrite deploy_as_plan, bind_run, Hp, bind_run, Hplan, run_plan_app, Hpre.
  cbn [run_plan]. by rewrite bind_run, Hb.
Qed.

(** C7.  A batch over a non-empty sequence dispatches every entry that
    passes the filter and lets each settle, whatever the others did; it then
    prints the line "skipped n operation type operations" with the number of
    skipped entries, if any, and a line with the number of succeeded
    operations and, if any failed, ", n failed" with the number of failed
    ones; succeeded and failed operations together are the eligible entries,
    eligible and skipped entries together are all entries; it raises the
    cause of the first failure, if any.  When a batch of
    [deploy] raises, [deploy] raises the same cause at once: its trace ends
    with the report of that batch. *)
Theorem partial_failure_collection c changes operation type operationOverride
    filterFn entries w :
  entries_of changes operation type = Some entries →
  entries ≠ [] →
  let op := default operation operationOverride in
  let eligible := List.filter (kept filterFn) entries in
  let skipped := List.filter (λ r, negb (kept filterFn r)) entries in
  ∃ w1 result,
    allSettled (dispatch request c op type <$> eligible) w = (w1, Ok result)
    ∧ length result = length eligible
    ∧ trace w1 = trace w ++ calls op type eligible
    ∧ deployResources request c changes operation type operationOverride filterFn w
      = (World (server w1)
               (trace w1 ++ batch_report operation type operationOverride
                                         skipped result),
         verdict result)
    ∧ report operation operationOverride type (length result)
             (length (List.filter fulfilled result))
      = label operation operationOverride
        +:+ pretty (length (List.filter fulfilled result)) +:+ " "
        +:+ type_name type
        +:+ (if bool_decide (List.filter (λ r, negb (fulfilled r)) result = [])
             then ""
             else ", "
                  +:+ pretty (length (List.filter (λ r, negb (fulfilled r)) result))
                  +:+ " failed")
    ∧ batch_report operation type operationOverride skipped result
      = (if bool_decide (skipped = []) then []
         else [Error ("skipped " +:+ pretty (length skipped) +:+ " "
                      +:+ operation_name operation +:+ " " +:+ type_name type
                      +:+ " operations")])
        ++ [Error (label operation operationOverride
                   +:+ pretty (length (List.filter fulfilled result)) +:+ " "
                   +:+ type_name type
                   +:+ (if bool_decide
                             (List.filter (λ r, negb (fulfilled r)) result = [])
                        then ""
                        else ", "
                             +:+ pretty (length (List.filter
                                                   (λ r, negb (fulfilled r)) result))
                             +:+ " failed"))]
    ∧ length (List.filter fulfilled result)
      + length (List.filter (λ r, negb (fulfilled r)) result) = length eligible
    ∧ length eligible + length skipped = length entries
    ∧ (∀ reason,
         verdict result = Throw reason
         ↔ ∃ settled_before settled_after,
             result = settled_before ++ RejectedWith reason :: settled_after
             ∧ Forall (λ r, fulfilled r = true) settled_before)
    ∧ (∀ definitions opts w0 wp pre post reason,
         c = RabbitClient (dryRun opts) →
         preflight diffServer definitions opts w0 = (wp, Ok changes) →
         plan changes opts
         = pre ++ Batch operation type operationOverride filterFn :: post →
         run_plan request c changes pre wp = (w, Ok tt) →
         verdict result = Throw reason →
         deploy request diffServer definitions opts w0
         = (World (server w1)
                  (trace w1 ++ batch_report operation type operationOverride
                                            skipped result),
            Throw reason)).
Proof.
  intros He Hne op eligible skipped.
  destruct (deployResources_run c changes operation type operationOverride
              filterFn entries w He Hne) as (w1 & result & Hrun & Hdep).
  destruct (allSettled_dispatch c op type eligible w)
    as (w1' & result' & Hrun' & Hlen & Htr).
  unfold op, eligible in Hrun'. rewrite Hrun in Hrun'. injection Hrun' as <- <-.
  exists w1, result. split_and!; [done..| | | | | |].
  - by rewrite report_counts, failedNotice_counts.
  - unfold batch_report, skippedNotice.
    rewrite report_counts, failedNotice_counts.
    generalize skipped. intros [|r rest].
    + rewrite (bool_decide_false (@nil value ≠ [])) by (intros H; by apply H).
      by rewrite (bool_decide_true (@nil value = [])).
    + rewrite (bool_decide_true (r :: rest ≠ [])) by done.
      by rewrite (bool_decide_false (r :: rest = [])).
  - rewrite <- Hlen. apply filter_lengths.
  - apply filter_lengths.
  - intros reason. unfold verdict. clear. induction result as [|[|e] rest IH].
    + split; [done|]. intros (sb & sa & Hs & _). by destruct sb.
    + cbn [List.filter fulfilled negb]. rewrite IH. split.
      * intros (sb & sa & -> & Hf). exists (Fulfilled :: sb), sa.
        split; [done|]. by constructor.
      * intros (sb & sa & Hs & Hf). destruct sb as [|s sb]; [done|].
        injection Hs as <- ->. apply Forall_cons in Hf as [_ Hf].
        by exists sb, sa.
    + cbn [List.filter fulfilled negb]. split.
      * intros [= ->]. exists [], rest. split; [done|]. constructor.
      * intros (sb & sa & Hs & Hf). destruct sb as [|s sb].
        -- by injection Hs as ->.
        -- injection Hs as <- _. by apply Forall_cons in Hf as [? _].
  - intros definitions opts w0 wp pre post reason -> Hp Hplan Hpre Hv.
    eapply deploy_aborts; [exact Hp|exact Hplan|exact Hpre|].
    unfold run_batch. cbn [b_operation b_type b_override b_filter].
    by rewrite Hdep, Hv.
Qed.

Lemma calls_added_vhosts resources :
  calls Added Vhosts resources
  = (λ r, Request PUT (url ["/api/vhosts/"; ""] [get (resourceArg r) "name"])
                  (resourceArg r)) <$> resources.
Proof. unfold calls. induction resources as [|r rs IH]; [done|]. by rewrite bind_cons, IH. Qed.

Lemma calls_added_queues resources :
  calls Added Queues resources
  = (λ r, Request PUT (url ["/api/queues/"; "/"; ""]
                           [get (resourceArg r) "vhost"; get (resourceArg r) "name"])
                  (resourceArg r)) <$> resources.
Proof. unfold calls. induction resources as [|r rs IH]; [done|]. by rewrite bind_cons, IH. Qed.

Lemma length_calls_added type resources :
  length (calls Added type resources) = length resources.
Proof.
  unfold calls. induction resources as [|r rs IH]; [done|].
  rewrite bind_cons, length_app, IH. by destruct type.
Qed.

(** A vhost path is never a queue path. *)
Lemma vhost_path_is_no_queue_path name vhost queue :
  url ["/api/vhosts/"; ""] [name] ≠ url ["/api/queues/"; "/"; ""] [vhost; queue].
Proof.
  intros H. apply (f_equal (String.get 5)) in H.
  vm_compute in H. discriminate.
Qed.

Lemma filter_kept_None (entries : list value) :
  List.filter (kept None) entries = entries.
Proof. induction entries as [|r rs IH]; [done|]. simpl. by rewrite IH. Qed.

Lemma additions_calls changes :
  concat (batch_calls changes <$> additions) = creations changes.
Proof.
  unfold additions, creations, batch_calls.
  cbn [fmap list_fmap concat b_operation b_type b_override b_filter entries_of
       default at_key].
  by rewrite !filter_kept_None, app_nil_r.
Qed.

(** C9.  The remote calls of a run start with the creations of the additive
    phase in the order vhosts, users, exchanges, queues, each batch complete
    before the next begins, or stop within them when a batch failed; a run
    that returns has issued them all.  So whenever the create call of an
    added queue is issued, the create call of every added vhost was issued
    strictly before it; indeed no request to a queue path is issued before
    the create call of an added vhost. *)
Theorem additions_in_order definitions opts w :
  let changes := diffServer (RabbitClient (dryRun opts)) (server w) definitions
                            (ignoreList opts) in
  let added := Diff.added changes in
  ∃ issued,
    requests (trace (deploy request diffServer definitions opts w).1)
    = requests (trace w) ++ issued
    ∧ ((∃ n, n ≤ 4
             ∧ issued = concat (batch_calls changes <$> take n additions))
       ∨ creations changes `prefix_of` issued)
    ∧ ((deploy request diffServer definitions opts w).2 = Ok tt →
       creations changes `prefix_of` issued)
    ∧ (∀ i j v q,
        vhosts added !! i = Some v →
        queues added !! j = Some q →
        let p := length (vhosts added) + length (users added)
                 + length (exchanges added) + j in
        p < length issued →
        issued !! i
        = Some (Request PUT (url ["/api/vhosts/"; ""] [get (resourceArg v) "name"])
                        (resourceArg v))
        ∧ issued !! p
          = Some (Request PUT
                    (url ["/api/queues/"; "/"; ""]
                         [get (resourceArg q) "vhost"; get (resourceArg q) "name"])
                    (resourceArg q))
        ∧ i < p)
    ∧ (∀ i v x vhost name body,
         vhosts added !! i = Some v →
         issued !! x
         = Some (Request PUT (url ["/api/queues/"; "/"; ""] [vhost; name]) body) →
         issued !! i
         = Some (Request PUT (url ["/api/vhosts/"; ""] [get (resourceArg v) "name"])
                         (resourceArg v))
         ∧ i < x).
Proof.
  intros changes added.
  destruct (deploy_requests definitions opts w) as (k & Hk & Hreq & Hok).
  fold changes in Hk, Hreq, Hok.
  exists (concat (batch_calls changes <$> take k (plan changes opts))).
  split; [exact Hreq|].
  assert (Hplan : ∃ rest, plan changes opts = additions ++ rest)
    by (by eexists).
  destruct Hplan as [rest Hplan]. rewrite Hplan in *. clear Hplan.
  assert (Hcases : (k ≤ 4 ∧ take k (additions ++ rest) = take k additions)
                   ∨ (4 ≤ k ∧ take k (additions ++ rest)
                              = additions ++ take (k - 4) rest)).
  { destruct (decide (k ≤ 4)).
    - left. split; [done|]. by apply take_app_le.
    - right. split; [lia|]. apply (take_app_ge additions). simpl. lia. }
  assert (Hlookup : ∀ p,
    p < length (concat (batch_calls changes <$> take k (additions ++ rest))) →
    p < length (creations changes) →
    concat (batch_calls changes <$> take k (additions ++ rest)) !! p
    = creations changes !! p).
  { intros p Hp Hc. destruct Hcases as [[Hk4 Ht]|[Hk4 Ht]]; rewrite Ht in *.
    - rewrite <- additions_calls.
      rewrite <- (take_drop k additions) at 2.
      rewrite fmap_app, concat_app. by rewrite lookup_app_l.
    - rewrite fmap_app, concat_app, additions_calls in *.
      by rewrite lookup_app_l. }
  split_and!.
  - destruct Hcases as [[Hk4 ->]|[Hk4 ->]]; [left; by exists k|right].
    rewrite fmap_app, concat_app, additions_calls. by eexists.
  - intros Hrun. specialize (Hok Hrun). rewrite Hok.
    rewrite firstn_all, fmap_app, concat_app, additions_calls. by eexists.
  - intros i j v q Hv Hq p Hp.
    pose proof (lookup_lt_Some _ _ _ Hv) as Hi.
    pose proof (lookup_lt_Some _ _ _ Hq) as Hj.
    assert (Hpc : p < length (creations changes)).
    { unfold creations. rewrite !length_app, !length_calls_added.
      fold added. unfold p. lia. }
    split_and!; [| |unfold p; lia].
    + rewrite Hlookup by lia. unfold creations.
      rewrite lookup_app_l by (rewrite length_calls_added; fold added; lia).
      rewrite calls_added_vhosts, list_lookup_fmap. fold added.
      by rewrite Hv.
    + rewrite Hlookup by lia. unfold creations.
      rewrite lookup_app_r by (rewrite length_calls_added; fold added; unfold p; lia).
      rewrite lookup_app_r
        by (rewrite !length_calls_added; fold added; unfold p; lia).
      rewrite lookup_app_r
        by (rewrite !length_calls_added; fold added; unfold p; lia).
      rewrite !length_calls_added, calls_added_queues, list_lookup_fmap.
      fold added.
      replace (p - length (vhosts added) - length (users added)
               - length (exchanges added)) with j by (unfold p; lia).
      by rewrite Hq.
  - intros i v x vhost name body Hv Hx.
    pose proof (lookup_lt_Some _ _ _ Hv) as Hi.
    pose proof (lookup_lt_Some _ _ _ Hx) as Hxl.
    assert (Hvc : ∀ y, y < length (vhosts added) →
              y < length (concat (batch_calls changes
                                  <$> take k (additions ++ rest))) →
              concat (batch_calls changes <$> take k (additions ++ rest)) !! y
              = (λ r, Request PUT (url ["/api/vhosts/"; ""]
                                       [get (resourceArg r) "name"])
                              (resourceArg r)) <$> vhosts added !! y).
    { intros y Hy Hyl. rewrite Hlookup;
        [|done|unfold creations; rewrite !length_app, !length_calls_added;
               fold added; lia].
      unfold creations.
      rewrite lookup_app_l by (rewrite length_calls_added; fold added; lia).
      by rewrite calls_added_vhosts, list_lookup_fmap. }
    assert (Hge : length (vhosts added) ≤ x).
    { destruct (decide (x < length (vhosts added))) as [Hlt|]; [|lia].
      exfalso. rewrite (Hvc x Hlt Hxl) in Hx.
      destruct (vhosts added !! x) as [r|]; [|done].
      apply (f_equal (λ e, match e with
                           | Some (Request _ path _) => path
                           | _ => ""
                           end)) in Hx.
      by apply vhost_path_is_no_queue_path in Hx. }
    split; [|lia]. rewrite Hvc by lia. by rewrite Hv.
Qed.

End DeployFacts.

(** ** The option conflict, with the reading of the broker *)

Section AwaitFacts.

Context {Server : Type}.
Context (request : client → Server → method → string → value → Server * settled).
Context (diffServer : client → Server → definitions → option (list value)
                      → Server * list event * outcome Diff.t).

(** [deploy] is [deploy_awaiting] for a [diffServer] that resolves, leaves
    the broker as it is and has no trace. *)
Lemma deploy_awaiting_resolved
    (resolved : client → Server → definitions → option (list value) → Diff.t)
    definitions opts w :
  deploy_awaiting request (λ c sv d il, (sv, [], Ok (resolved c sv d il)))
                  definitions opts w
  = deploy request resolved definitions opts w.
Proof.
  unfold deploy_awaiting, deploy. rewrite !bind_run.
  destruct (when (dryRun opts) (emit (Warn dryRunWarning)) w) as [w0 [[]|e]];
    [|done].
  rewrite !bind_run. unfold await_diffServer. rewrite app_nil_r.
  by destruct w0.
Qed.

(** The run up to the check of the options. *)
Lemma deploy_awaiting_conflict definitions opts w sv reads awaited :
  noDeletions opts = true →
  recreateChanged opts = true →
  diffServer (RabbitClient (dryRun opts)) (server w) definitions (ignoreList opts)
  = (sv, reads, awaited) →
  let dryRunLine := if dryRun opts then [Warn dryRunWarning] else [] in
  deploy_awaiting request diffServer definitions opts w
  = match awaited with
    | Ok changes =>
        (World sv
           (trace w ++ dryRunLine ++ reads
            ++ if bool_decide (vhosts (Diff.added changes) ≠ [])
                  && hasAddedPermissionsForVhosts changes
               then [Warn missingPermissionsWarning] else []),
         Throw OptionConflict)
    | Throw e => (World sv (trace w ++ dryRunLine ++ reads), Throw e)
    end.
Proof.
  intros ND RC Hd dryRunLine. subst dryRunLine.
  unfold deploy_awaiting, await_diffServer, when, emit, throw, mbind, M_bind, mret,
    M_ret.
  rewrite ND, RC. destruct w as [sv0 tr]. cbn [server] in Hd.
  destruct (dryRun opts); cbn [server trace andb]; rewrite Hd;
    destruct awaited as [changes|e]; cbn [fst snd server trace];
    try destruct (bool_decide (vhosts (Diff.added changes) ≠ [])
                  && hasAddedPermissionsForVhosts changes);
    cbn [server trace]; by rewrite <- ?app_assoc, ?app_nil_r.
Qed.

(** C6.  With both [noDeletions] and [recreateChanged] set, every run of
    [deploy] raises, leaves the broker as the [await] of [diffServer] on line
    104 left it, and has on the transport only what [diffServer] did there:
    no phase dispatches a create, change or delete operation.  When
    [diffServer] resolves, the error is the option conflict, raised after the
    dry-run warning, the work of [diffServer] and the warning about missing
    permissions, if they apply; when [diffServer] rejects, the error is its
    reason, raised before the options are looked at. *)
Theorem option_conflict_is_fatal definitions opts w :
  noDeletions opts = true →
  recreateChanged opts = true →
  let '(sv, reads, awaited) :=
    diffServer (RabbitClient (dryRun opts)) (server w) definitions (ignoreList opts) in
  let dryRunLine := if dryRun opts then [Warn dryRunWarning] else [] in
  let run := deploy_awaiting request diffServer definitions opts w in
  (∀ changes,
     awaited = Ok changes →
     run = (World sv
              (trace w ++ dryRunLine ++ reads
               ++ if bool_decide (vhosts (Diff.added changes) ≠ [])
                     && hasAddedPermissionsForVhosts changes
                  then [Warn missingPermissionsWarning] else []),
            Throw OptionConflict))
  ∧ (∀ e,
       awaited = Throw e →
       run = (World sv (trace w ++ dryRunLine ++ reads), Throw e))
  ∧ (∃ e, run.2 = Throw e)
  ∧ server run.1 = sv
  ∧ requests (trace run.1) = requests (trace w) ++ requests reads.
Proof.
  intros ND RC.
  destruct (diffServer _ (server w) definitions (ignoreList opts))
    as [[sv reads] awaited] eqn:Hd.
  intros dryRunLine run.
  pose proof (deploy_awaiting_conflict definitions opts w sv reads awaited ND RC Hd)
    as Hrun.
  cbn zeta in Hrun. fold dryRunLine run in Hrun. rewrite Hrun.
  assert (Hline : requests dryRunLine = [])
    by (unfold dryRunLine; by destruct (dryRun opts)).
  destruct awaited as [changes|e]; split_and!.
  - by intros ? [= <-].
  - done.
  - by eexists.
  - done.
  - cbn [fst trace]. rewrite !requests_app, Hline.
    destruct (_ && _); cbn; by rewrite ?app_nil_r.
  - done.
  - by intros ? [= <-].
  - by eexists.
  - done.
  - cbn [fst trace]. by rewrite !requests_app, Hline.
Qed.

End AwaitFacts.

Lemma option_conflict_is_fatal_witness :
  deploy_awaiting always_fulfils readLive desired_additions
                  (Options false true true None) (World live_root [])
  = (World live_root
       [Request GET "/api/definitions" VNull; Warn missingPermissionsWarning],
     Throw OptionConflict).
Proof.
  exact (proj1 (option_conflict_is_fatal always_fulfils readLive desired_additions
                  (Options false true true None) (World live_root [])
                  eq_refl eq_refl)
               (diffLive (RabbitClient false) live_root desired_additions None)
               ltac:(compute_done)).
Defined.

(** When the reading rejects, its reason is raised and the conflict of the
    options goes unreported. *)
Example rejection_before_option_conflict :
  deploy_awaiting always_fulfils readLive malformed (Options false true true None)
                  (World live_root [])
  = (World live_root [Request GET "/api/definitions" VNull],
     Throw (ConstructionError Vhosts (obj []))).
Proof. compute_done. Qed.

Lemma partial_failure_collection_witness :
  deployResources (rejecting "/api/vhosts/new") (RabbitClient false)
    (diffLive (RabbitClient false) live_root desired_additions None)
    Added Vhosts None (Some (named "new")) (World live_root [])
  = (World live_root
       [Request PUT "/api/vhosts/new" (vhost_named "new");
        Error "skipped 1 added vhosts operations";
        Error "added 0 vhosts, 1 failed"],
     Throw (Rejected "503 Service Unavailable")).
Proof.
  destruct (partial_failure_collection (rejecting "/api/vhosts/new") diffLive
              (RabbitClient false)
              (diffLive (RabbitClient false) live_root desired_additions None)
              Added Vhosts None (Some (named "new"))
              [vhost_named "new"; vhost_named "other"] (World live_root [])
              ltac:(compute_done) ltac:(done))
    as (w1 & result & Hrun & _ & _ & Hbatch & _ & Hreport & _).
  rewrite Hbatch, Hreport. vm_compute in Hrun. injection Hrun as <- <-.
  compute_done.
Defined.

Lemma additions_in_order_witness :
  requests (trace (deploy always_fulfils diffLive desired_additions plain
                          (World live_root [])).1) !! 0
  = Some (Request PUT "/api/vhosts/new" (vhost_named "new"))
  ∧ requests (trace (deploy always_fulfils diffLive desired_additions plain
                            (World live_root [])).1) !! 2
    = Some (Request PUT "/api/queues/new/q2" q2_in_new).
Proof.
  destruct (additions_in_order always_fulfils diffLive desired_additions plain
              (World live_root [])) as (issued & Hreq & _ & _ & Hpos & _).
  rewrite Hreq. vm_compute in Hreq. subst issued.
  destruct (Hpos 0 0 (vhost_named "new") q2_in_new ltac:(compute_done)
              ltac:(compute_done) ltac:(vm_compute; lia)) as (Hv & Hq & _).
  split; [exact Hv|exact Hq].
Defined.

(** The count in the warning about ignored changes covers every type that
    is not in [mutableResources], vhosts included. *)
Lemma changedResourceCount_types changes :
  changedResourceCount changes
  = length (vhosts (Diff.changed changes)) + length (queues (Diff.changed changes))
    + length (exchanges (Diff.changed changes))
    + length (bindings (Diff.changed changes)).
Proof.
  unfold changedResourceCount, entries.
  cbn [all_types fmap list_fmap foldl at_key].
  rewrite (bool_decide_false (Vhosts ∈ mutableResources)) by compute_done.
  rewrite (bool_decide_false (Queues ∈ mutableResources)) by compute_done.
  rewrite (bool_decide_false (Exchanges ∈ mutableResources)) by compute_done.
  rewrite (bool_decide_false (Bindings ∈ mutableResources)) by compute_done.
  rewrite (bool_decide_true (Users ∈ mutableResources)) by compute_done.
  rewrite (bool_decide_true (Permissions ∈ mutableResources)) by compute_done.
  rewrite (bool_decide_true (TopicPermissions ∈ mutableResources)) by compute_done.
  lia.
Qed.

(** The filter of the permission and user deletions: once a vhost is
    deleted, a record with a [vhost] field is skipped, and a record without
    one is kept, whichever vhosts are deleted; vhost records have a [name]
    and no [vhost]. *)
Lemma notInDeletedVhost_filter changes r :
  vhosts (Diff.deleted changes) ≠ [] →
  Forall (λ deleted, get deleted "vhost" = None ∧ truthy (Some deleted) = true)
         (vhosts (Diff.deleted changes)) →
  kept (Some (notInDeletedVhost changes)) r
  = bool_decide (get r "vhost" = None).
Proof.
  intros Hne Hall. unfold kept, notInDeletedVhost.
  rewrite bool_decide_true by done.
  destruct (vhosts (Diff.deleted changes)) as [|d ds]; [done|].
  apply Forall_cons in Hall as [[Hd Ht] Hds]. cbn [List.find]. rewrite Hd.
  destruct (get r "vhost") as [v|] eqn:Hv.
  - assert (Hs : strict_eq (Some v) None = false) by by destruct v.
    rewrite Hs, bool_decide_false by done. clear Hne.
    induction Hds as [|d' ds' [Hd' _] _ IH]; [done|]. cbn [List.find].
    by rewrite Hd', Hs.
  - cbn [strict_eq]. by rewrite Ht, bool_decide_true.
Qed.

(** C5 (failing input).  Vhost [old] is deleted and vhost [keep] stays; the
    permission of [guest] in [keep] is to be deleted, yet no delete call is
    issued for it: the filter skips every permission once any vhost is
    deleted. *)
Theorem permission_delete_skipped_outside_deleted_vhost :
  Diff.deleted (diffLive (RabbitClient false) live_cascade desired_cascade None)
  = ChangeMap [vhost_named "old"] [] [] [] [] [permission "keep" "guest"] []
  ∧ deploy always_fulfils diffLive desired_cascade plain (World live_cascade [])
    = (World live_cascade
         [Error "skipped 1 deleted permissions operations";
          Error "deleted 0 permissions";
          Request DELETE "/api/vhosts/old" (vhost_named "old");
          Error "deleted 1 vhosts"],
       Ok tt).
Proof. split; compute_done. Qed.

(** C8 (failing input).  One vhost and one queue are changed and
    [recreateChanged] is not set: the warning reports 2 ignored resources,
    though one exchange, queue or binding is changed and the changed vhost
    is deployed in place. *)
Theorem ignoring_warning_counts_changed_vhosts :
  let changes := diffLive (RabbitClient false) live_changed desired_changed None in
  Diff.changed changes
  = ChangeMap [Change (traced false) (traced true)] [Change q1 q1_durable]
              [] [] [] [] []
  ∧ length (exchanges (Diff.changed changes)) + length (queues (Diff.changed changes))
    + length (bindings (Diff.changed changes)) = 1
  ∧ deploy always_fulfils diffLive desired_changed plain (World live_changed [])
    = (World live_changed
         [Warn "Ignoring 2 changed resources, which need to be deleted and recreated. Provide --recreate-changed option to deploy changed resources.";
          Request PUT "/api/vhosts/%2F" (traced true);
          Error "changed 1 vhosts"],
       Ok tt).
Proof. split_and!; compute_done. Qed.

(** * Further properties of the diff engine *)

(** ** More on the diff of one resource type *)

Lemma classify_sets l before after acc :
  (foldl classify (before, after, acc) l).1
  = (foldl HashSet.delete before l, foldl HashSet.delete after l).
Proof.
  revert before after acc. induction l as [|a l IH]; intros before after acc; [done|].
  cbn [foldl]. unfold classify at 2.
  destruct (HashSet.get before a) as [b|]; [destruct (negb _)|]; apply IH.
Qed.

Lemma drain_sets l before after acc :
  (foldl drain (before, after, acc) l).1 = (foldl HashSet.delete before l, after).
Proof.
  revert before acc. induction l as [|b l IH]; intros before acc; [done|].
  cbn [foldl]. unfold drain at 2. apply IH.
Qed.

Lemma delete_all s l :
  foldl HashSet.delete s l
  = HashSet.make (HashSet.kind s)
      (without (identity (HashSet.kind s)) (identity (HashSet.kind s) <$> l)
               (HashSet.members s)).
Proof.
  revert s. induction l as [|a l IH]; intros [k m].
  - simpl. by rewrite without_nil.
  - cbn [foldl]. rewrite delete_make, IH. simpl. by rewrite without_without.
Qed.

(** X1.  [diffMapsConsuming] consumes its arguments: whatever the two sets
    hold, both are empty when it returns (and still sets of the same
    resource type). *)
Theorem diffMapsConsuming_drains before after :
  HashSet.values (diffMapsConsuming before after).1.1 = []
  ∧ HashSet.values (diffMapsConsuming before after).1.2 = []
  ∧ HashSet.kind (diffMapsConsuming before after).1.1 = HashSet.kind before
  ∧ HashSet.kind (diffMapsConsuming before after).1.2 = HashSet.kind after.
Proof.
  unfold diffMapsConsuming.
  destruct (foldl classify (before, after, MapDiff.empty) (HashSet.values after))
    as [[b1 a1] acc] eqn:E1.
  pose proof (classify_sets (HashSet.values after) before after MapDiff.empty) as Hs.
  rewrite E1 in Hs. cbn [fst] in Hs. injection Hs as Hb Ha.
  cbn [fst snd].
  pose proof (drain_sets (HashSet.values b1) b1 a1 acc) as Hd.
  destruct (foldl drain (b1, a1, acc) (HashSet.values b1)) as [[b2 a2] acc2].
  cbn [fst snd] in *. injection Hd as -> ->.
  rewrite Ha, !delete_all. unfold HashSet.values. cbn [HashSet.members HashSet.kind].
  rewrite !without_self. split_and!; [done|done| |done].
  rewrite Hb, delete_all. done.
Qed.

Lemma diffLocals_closed beforeDef afterDef ignoreList l ty :
  diffLocals beforeDef afterDef ignoreList = Ok l →
  let h := identity ty in
  let B := HashSet.values (Index.collection (l_before l) ty) in
  let A := HashSet.values (Index.collection (l_after l) ty) in
  NoDup (h <$> B) ∧ NoDup (h <$> A)
  ∧ classes (l_collected l) ty
    = MapDiff.make (added_of h B A) (without h (h <$> A) B) (changed_of h B A)
                   (unaffected_of h B A).
Proof.
  intros Hl h B A. destruct (diffLocals_classes _ _ _ _ ty Hl) as (HB & HA & ->).
  split_and!; [done..|]. by rewrite diffMapsConsuming_closed.
Qed.

Lemma classes_at c ty :
  at_key (c_added c) ty = MapDiff.added (classes c ty)
  ∧ at_key (c_deleted c) ty = MapDiff.deleted (classes c ty)
  ∧ at_key (c_changed c) ty = MapDiff.changed (classes c ty)
  ∧ at_key (c_unaffected c) ty = MapDiff.unaffected (classes c ty).
Proof. done. Qed.

(** X2.  When [diff] returns, for every resource type: a record is reported
    added exactly when it is in the after set and no record of the before set
    has its identity; deleted exactly when it is in the before set and no
    record of the after set has its identity; a pair is reported changed
    exactly when its before record is in the before set, its after record in
    the after set, both have the same identity and they differ; a record is
    unaffected exactly when it is in both sets. *)
Theorem diff_classification beforeDef afterDef ignoreList l ty :
  diffLocals beforeDef afterDef ignoreList = Ok l →
  let B := HashSet.values (Index.collection (l_before l) ty) in
  let A := HashSet.values (Index.collection (l_after l) ty) in
  let c := l_collected l in
  (∀ a, a ∈ at_key (c_added c) ty
        ↔ a ∈ A ∧ identity ty a ∉ identity ty <$> B)
  ∧ (∀ b, b ∈ at_key (c_deleted c) ty
          ↔ b ∈ B ∧ identity ty b ∉ identity ty <$> A)
  ∧ (∀ p, p ∈ at_key (c_changed c) ty
          ↔ before p ∈ B ∧ after p ∈ A
            ∧ identity ty (before p) = identity ty (after p)
            ∧ before p ≠ after p)
  ∧ (∀ u, u ∈ at_key (c_unaffected c) ty ↔ u ∈ A ∧ u ∈ B).
Proof.
  intros Hl B A c.
  destruct (diffLocals_closed _ _ _ _ ty Hl) as (HB & HA & Hc).
  fold B A c in HB, HA, Hc.
  destruct (classes_at c ty) as (-> & -> & -> & ->). rewrite Hc.
  cbn [MapDiff.added MapDiff.deleted MapDiff.changed MapDiff.unaffected].
  split_and!.
  - intros a. by rewrite elem_of_added_of, lookup_None.
  - intros b. by rewrite elem_of_without.
  - intros p. rewrite elem_of_changed_of. split.
    + intros (Ha & Hb & Hne). apply lookup_Some in Hb as [Hb Hid]. done.
    + intros (Hb & Ha & Hid & Hne). split_and!; [done| |done].
      by apply lookup_unique.
  - intros u. rewrite elem_of_unaffected_of. split.
    + intros [Hu Hb]. by apply lookup_Some in Hb as [Hb _].
    + intros [Hu Hb]. split; [done|]. by apply lookup_unique.
Qed.

Lemma diff_classification_witness :
  vhost_named "new" ∈ [vhost_named "new"]
  ↔ vhost_named "new" ∈ [vhost_named "/"; vhost_named "new"]
    ∧ identity Vhosts (vhost_named "new")
      ∉ identity Vhosts <$> [vhost_named "/"; vhost_named "old"].
Proof.
  exact (proj1 (diff_classification snapshot_before snapshot_after None
                  snapshot_locals Vhosts ltac:(compute_done))
               (vhost_named "new")).
Defined.

Lemma sublist_omap_after h B l :
  after <$> changed_of h B l `sublist_of` l.
Proof.
  unfold changed_of. induction l as [|a l IH]; [done|]. csimpl.
  destruct (lookup h B a) as [b|]; csimpl; [|by constructor].
  destruct (isDeepStrictEqual b a); csimpl; by constructor.
Qed.

(** X3.  When [diff] returns, the added records, the after records of the
    changed pairs and the unaffected records come in the order in which the
    after set is iterated, the deleted records in the order in which the
    before set is iterated: the loops of [diffMapsConsuming] neither reorder
    nor repeat what they visit. *)
Theorem diff_in_set_order beforeDef afterDef ignoreList l ty :
  diffLocals beforeDef afterDef ignoreList = Ok l →
  let B := HashSet.values (Index.collection (l_before l) ty) in
  let A := HashSet.values (Index.collection (l_after l) ty) in
  let c := l_collected l in
  at_key (c_added c) ty `sublist_of` A
  ∧ after <$> at_key (c_changed c) ty `sublist_of` A
  ∧ at_key (c_unaffected c) ty `sublist_of` A
  ∧ at_key (c_deleted c) ty `sublist_of` B.
Proof.
  intros Hl B A c.
  destruct (diffLocals_closed _ _ _ _ ty Hl) as (HB & HA & Hc).
  fold B A c in HB, HA, Hc.
  destruct (classes_at c ty) as (-> & -> & -> & ->). rewrite Hc.
  cbn [MapDiff.added MapDiff.deleted MapDiff.changed MapDiff.unaffected].
  split_and!; [apply sublist_List_filter|apply sublist_omap_after
              |apply sublist_List_filter|apply sublist_List_filter].
Qed.

Lemma diff_in_set_order_witness :
  [vhost_named "new"] `sublist_of` [vhost_named "/"; vhost_named "new"]
  ∧ [vhost_named "old"] `sublist_of` [vhost_named "/"; vhost_named "old"].
Proof.
  destruct (diff_in_set_order snapshot_before snapshot_after None
              snapshot_locals Vhosts ltac:(compute_done))
    as (Ha & _ & _ & Hd).
  exact (conj Ha Hd).
Defined.

(** ** Diffing against nothing *)

Lemma added_of_nil h l : added_of h [] l = l.
Proof. by rewrite added_of_without, without_nil. Qed.

Lemma changed_of_nil h l : changed_of h [] l = [].
Proof. unfold changed_of. by induction l as [|a l IH]. Qed.

Lemma unaffected_of_nil h l : unaffected_of h [] l = [].
Proof. unfold unaffected_of. by induction l as [|a l IH]. Qed.

Lemma filter_implicitlyAffected_by_nothing l :
  List.filter (implicitlyAffected_by [] []) l = [].
Proof.
  induction l as [|b bs IH]; [done|]. cbn [List.filter].
  by rewrite implicitlyAffected_by_nothing.
Qed.

Lemma implicitlyAffected_of_locals beforeDef afterDef ignoreList l :
  diffLocals beforeDef afterDef ignoreList = Ok l →
  l_implicitlyAffectedBindings l
  = List.filter (implicitlyAffected_by (exchanges (c_changed (l_collected l)))
                                       (queues (c_changed (l_collected l))))
                (bindings (c_unaffected (l_collected l))).
Proof.
  intros (_ & _ & Hc & ->)%diffLocals_inv.
  by rewrite collectAll_implicitlyAffected, <- Hc.
Qed.

Lemma index_no_definitions b ig idx ty :
  Index.fromDefinitions no_definitions b ig = Ok idx →
  HashSet.values (Index.collection idx ty) = [].
Proof. intros [= <-]. by destruct ty. Qed.

(** X4.  Against the empty snapshot everything is added, and from a snapshot
    to the empty one everything is deleted: when [diff] of nothing and [Y]
    returns, it reports the records of the set of [Y] as added, and [diff] of
    [Y] and nothing reports the same records as deleted; neither reports a
    change or an implicitly affected binding. *)
Theorem diff_against_nothing Y ignoreList l :
  diffLocals no_definitions Y ignoreList = Ok l →
  let everything := c_added (l_collected l) in
  diff no_definitions Y ignoreList
  = Ok (Diff.make everything makeChangeMap makeChangeMap [])
  ∧ diff Y no_definitions ignoreList
    = Ok (Diff.make makeChangeMap everything makeChangeMap [])
  ∧ ∀ ty, at_key everything ty = HashSet.values (Index.collection (l_after l) ty).
Proof.
  intros Hl everything.
  assert (Hty : ∀ ty, classes (l_collected l) ty
    = MapDiff.make (HashSet.values (Index.collection (l_after l) ty)) [] [] []).
  { intros ty. destruct (diffLocals_closed _ _ _ _ ty Hl) as (_ & _ & ->).
    pose proof Hl as (Hb & _)%diffLocals_inv.
    rewrite (index_no_definitions _ _ _ ty Hb).
    by rewrite added_of_nil, changed_of_nil, unaffected_of_nil. }
  destruct (diffLocals_reverse _ _ _ _ Hl) as (l' & Hl' & Hb' & Ha').
  assert (Hty' : ∀ ty, classes (l_collected l') ty
    = MapDiff.make [] (HashSet.values (Index.collection (l_after l) ty)) [] []).
  { intros ty. destruct (diffLocals_closed _ _ _ _ ty Hl') as (_ & _ & ->).
    pose proof Hl as (Hb & _)%diffLocals_inv.
    rewrite Hb', Ha', (index_no_definitions _ _ _ ty Hb). cbn [fmap list_fmap].
    by rewrite without_nil. }
  assert (Hempty : ∀ l0 : locals,
            c_changed (l_collected l0) = makeChangeMap →
            List.filter (implicitlyAffected_by (exchanges (c_changed (l_collected l0)))
                                               (queues (c_changed (l_collected l0))))
                        (bindings (c_unaffected (l_collected l0))) = []).
  { intros l0 ->. apply filter_implicitlyAffected_by_nothing. }
  split_and!.
  - rewrite (diff_of_locals _ _ _ _ Hl), (implicitlyAffected_of_locals _ _ _ _ Hl).
    assert (Hc : c_changed (l_collected l) = makeChangeMap).
    { apply changeMap_ext. intros ty.
      rewrite (proj1 (proj2 (proj2 (classes_at _ ty)))), Hty. by destruct ty. }
    rewrite (Hempty _ Hc), Hc. do 2 f_equal.
    apply changeMap_ext. intros ty.
    rewrite (proj1 (proj2 (classes_at _ ty))), Hty. by destruct ty.
  - rewrite (diff_of_locals _ _ _ _ Hl'), (implicitlyAffected_of_locals _ _ _ _ Hl').
    assert (Hc : c_changed (l_collected l') = makeChangeMap).
    { apply changeMap_ext. intros ty.
      rewrite (proj1 (proj2 (proj2 (classes_at _ ty)))), Hty'. by destruct ty. }
    rewrite (Hempty _ Hc), Hc. do 2 f_equal.
    + apply changeMap_ext. intros ty.
      rewrite (proj1 (classes_at _ ty)), Hty'. by destruct ty.
    + apply changeMap_ext. intros ty. unfold everything.
      by rewrite (proj1 (proj2 (classes_at _ ty))), (proj1 (classes_at _ ty)), Hty', Hty.
  - intros ty. unfold everything. by rewrite (proj1 (classes_at _ ty)), Hty.
Qed.

Lemma diff_against_nothing_witness :
  diff no_definitions (only_queues [q1]) None
  = Ok (Diff.make (ChangeMap [] [q1] [] [] [] [] []) makeChangeMap makeChangeMap [])
  ∧ diff (only_queues [q1]) no_definitions None
    = Ok (Diff.make makeChangeMap (ChangeMap [] [q1] [] [] [] [] []) makeChangeMap []).
Proof.
  destruct (diffLocals no_definitions (only_queues [q1]) None) as [l|e] eqn:E;
    [|by vm_compute in E].
  destruct (diff_against_nothing (only_queues [q1]) None l E) as (H1 & H2 & _).
  rewrite H1, H2. vm_compute in E. injection E as <-. split; reflexivity.
Defined.

(** ** An empty diff, and the diff as a patch *)

Lemma unaffected_all h B l :
  changed_of h B l = [] → added_of h B l = [] → unaffected_of h B l = l.
Proof.
  unfold changed_of, added_of, unaffected_of.
  induction l as [|a A IH]; [done|].
  csimpl. destruct (lookup h B a) as [b|]; csimpl; [|done].
  destruct (isDeepStrictEqual b a); csimpl; [|done].
  intros H1 H2. f_equal. by apply IH.
Qed.

(** X5.  When [diff] returns without any added, deleted or changed record,
    the two sets of every resource type hold the same records, all of them
    unaffected. *)
Theorem empty_diff_same_records beforeDef afterDef ignoreList l :
  diffLocals beforeDef afterDef ignoreList = Ok l →
  c_added (l_collected l) = makeChangeMap →
  c_deleted (l_collected l) = makeChangeMap →
  c_changed (l_collected l) = makeChangeMap →
  ∀ ty,
    HashSet.values (Index.collection (l_before l) ty)
    ≡ₚ HashSet.values (Index.collection (l_after l) ty)
    ∧ at_key (c_unaffected (l_collected l)) ty
      = HashSet.values (Index.collection (l_after l) ty).
Proof.
  intros Hl Ha Hd Hc ty.
  destruct (diffLocals_partitions _ _ _ _ ty Hl) as (_ & _ & PA & PB & _).
  destruct (diffLocals_closed _ _ _ _ ty Hl) as (_ & _ & Hcl).
  destruct (classes_at (l_collected l) ty) as (Ea & Ed & Ec & Eu).
  cbn [classes MapDiff.added MapDiff.deleted MapDiff.changed MapDiff.unaffected]
    in PA, PB.
  rewrite Ha, Hc in PA. rewrite Hd, Hc in PB.
  assert (Hnil : ∀ A, at_key (@makeChangeMap A) ty = []) by (intros; by destruct ty).
  rewrite !Hnil in PA, PB. cbn [fmap list_fmap app] in PA, PB.
  split; [by rewrite <- PA, <- PB|].
  rewrite Eu, Hcl. cbn [MapDiff.unaffected].
  assert (Hch : changed_of (identity ty)
                  (HashSet.values (Index.collection (l_before l) ty))
                  (HashSet.values (Index.collection (l_after l) ty)) = []).
  { transitivity (MapDiff.changed (classes (l_collected l) ty)); [by rewrite Hcl|].
    by rewrite <- Ec, Hc, Hnil. }
  assert (Had : added_of (identity ty)
                  (HashSet.values (Index.collection (l_before l) ty))
                  (HashSet.values (Index.collection (l_after l) ty)) = []).
  { transitivity (MapDiff.added (classes (l_collected l) ty)); [by rewrite Hcl|].
    by rewrite <- Ea, Ha, Hnil. }
  by apply unaffected_all.
Qed.

Lemma empty_diff_same_records_witness :
  [q1] ≡ₚ [q1].
Proof.
  exact (proj1 (empty_diff_same_records snapshot_before snapshot_before None
                  snapshot_before_locals ltac:(compute_done) eq_refl eq_refl eq_refl
                  Queues)).
Defined.

(** X6.  The diff is a complete patch: when [diff] returns, the after set of
    a resource type is, up to order, the before set without the records that
    are deleted or are the before record of a changed pair, together with the
    added records and the after records of the changed pairs. *)
Theorem diff_is_a_patch beforeDef afterDef ignoreList l ty :
  diffLocals beforeDef afterDef ignoreList = Ok l →
  let h := identity ty in
  let B := HashSet.values (Index.collection (l_before l) ty) in
  let A := HashSet.values (Index.collection (l_after l) ty) in
  let c := l_collected l in
  let gone := at_key (c_deleted c) ty ++ (before <$> at_key (c_changed c) ty) in
  at_key (c_added c) ty ++ (after <$> at_key (c_changed c) ty)
  ++ without h (h <$> gone) B ≡ₚ A.
Proof.
  intros Hl h B A c gone.
  destruct (diffLocals_partitions _ _ _ _ ty Hl) as (_ & _ & PA & PB & _).
  destruct (diffLocals_closed _ _ _ _ ty Hl) as (HB & HA & _).
  cbn [classes MapDiff.added MapDiff.deleted MapDiff.changed MapDiff.unaffected]
    in PA, PB.
  fold h B A c in PA, PB, HB, HA.
  rewrite <- PA. do 2 f_equiv.
  rewrite (assoc_L (++)) in PB. fold gone in PB.
  assert (Hnd : NoDup (h <$> (gone ++ at_key (c_unaffected c) ty)))
    by (by rewrite PB).
  rewrite fmap_app in Hnd. apply NoDup_app in Hnd as (_ & Hdisj & Hu).
  apply NoDup_Permutation.
  - eapply sublist_NoDup; [|apply sublist_List_filter].
    by apply (NoDup_fmap_1 h).
  - by apply (NoDup_fmap_1 h).
  - intros b. rewrite elem_of_without, <- PB, elem_of_app. split.
    + intros [[Hg|Hun] Hout]; [|done]. destruct Hout. by apply list_elem_of_fmap_2.
    + intros Hun. split; [by right|]. intros Hg. apply (Hdisj _ Hg).
      by apply list_elem_of_fmap_2.
Qed.

Lemma diff_is_a_patch_witness :
  [vhost_named "new"] ++ [] ++ [vhost_named "/"]
  ≡ₚ [vhost_named "/"; vhost_named "new"].
Proof.
  exact (diff_is_a_patch snapshot_before snapshot_after None snapshot_locals Vhosts
           ltac:(compute_done)).
Defined.

(** ** The order of the records *)

Lemma lookup_Permutation h B B' a :
  NoDup (h <$> B) → B ≡ₚ B' → lookup h B' a = lookup h B a.
Proof.
  intros Hnd HP. destruct (lookup h B a) as [b|] eqn:Hb.
  - apply lookup_Some in Hb as [Hin Hid].
    apply lookup_unique; [by rewrite <- HP|by rewrite <- HP|done].
  - apply lookup_None. apply lookup_None in Hb. by rewrite <- HP.
Qed.

Lemma List_filter_Permutation {A} (f : A → bool) (l l' : list A) :
  l ≡ₚ l' → List.filter f l ≡ₚ List.filter f l'.
Proof.
  induction 1 as [|x l l' _ IH|x y l|l l' l'' _ IH1 _ IH2]; cbn [List.filter].
  - done.
  - destruct (f x); by rewrite IH.
  - destruct (f x), (f y); by try constructor.
  - by etrans.
Qed.

Lemma without_Permutation h ks ks' l l' :
  ks ≡ₚ ks' → l ≡ₚ l' → without h ks l ≡ₚ without h ks' l'.
Proof.
  intros Hk Hl. unfold without. rewrite (List_filter_Permutation _ _ _ Hl).
  erewrite List.filter_ext; [done|]. intros r. apply bool_decide_ext.
  by rewrite Hk.
Qed.

(** X7.  The order of the records does not matter to the classification: on
    sets with unique identities, [diffMapsConsuming] on the same records in
    another order yields the same four sequences up to order. *)
Theorem diffMapsConsuming_any_order ty B A B' A' :
  NoDup (identity ty <$> B) →
  NoDup (identity ty <$> A) →
  B ≡ₚ B' →
  A ≡ₚ A' →
  let d := (diffMapsConsuming (HashSet.make ty B) (HashSet.make ty A)).2 in
  let d' := (diffMapsConsuming (HashSet.make ty B') (HashSet.make ty A')).2 in
  MapDiff.added d ≡ₚ MapDiff.added d'
  ∧ MapDiff.deleted d ≡ₚ MapDiff.deleted d'
  ∧ MapDiff.changed d ≡ₚ MapDiff.changed d'
  ∧ MapDiff.unaffected d ≡ₚ MapDiff.unaffected d'.
Proof.
  intros HB HA PB PA d d'. subst d d'.
  rewrite !diffMapsConsuming_closed; [|by rewrite <- PA|done].
  cbn [snd MapDiff.added MapDiff.deleted MapDiff.changed MapDiff.unaffected].
  destruct (classification_ext (identity ty) B B' A') as (-> & -> & ->).
  { intros a _. by apply lookup_Permutation. }
  split_and!.
  - by apply List_filter_Permutation.
  - apply without_Permutation; [by rewrite PA|done].
  - unfold changed_of. by rewrite PA.
  - by apply List_filter_Permutation.
Qed.

Lemma diffMapsConsuming_any_order_witness :
  (diffMapsConsuming (HashSet.make Vhosts [vhost_named "/"; vhost_named "old"])
                     (HashSet.make Vhosts [vhost_named "/"; vhost_named "new"])).2
  = MapDiff.make [vhost_named "new"] [vhost_named "old"] [] [vhost_named "/"]
  ∧ MapDiff.deleted
      (diffMapsConsuming (HashSet.make Vhosts [vhost_named "old"; vhost_named "/"])
                         (HashSet.make Vhosts [vhost_named "new"; vhost_named "/"])).2
    ≡ₚ [vhost_named "old"].
Proof.
  split; [compute_done|].
  refine (proj1 (proj2 (diffMapsConsuming_any_order Vhosts
                          [vhost_named "old"; vhost_named "/"]
                          [vhost_named "new"; vhost_named "/"]
                          [vhost_named "/"; vhost_named "old"]
                          [vhost_named "/"; vhost_named "new"] _ _ _ _)));
    [compute_done|compute_done|apply Permutation_swap..].
Defined.

(** * Further properties of the deployment planner *)

(** ** Paths *)

Lemma append_cons x (a b : string) : String x a +:+ b = String x (a +:+ b).
Proof. done. Qed.

Lemma append_nil_l (a : string) : "" +:+ a = a.
Proof. done. Qed.

Lemma occurrences_app c (a b : string) :
  occurrences c (a +:+ b) = occurrences c a + occurrences c b.
Proof.
  induction a as [|x a IH]; [done|].
  rewrite append_cons. cbn [occurrences]. rewrite IH. lia.
Qed.

Lemma hex_digit_unreserved n : unreserved (hex_digit n) = true.
Proof. do 17 (destruct n as [|n]; [reflexivity|]). reflexivity. Qed.

(** An encoded value consists of unreserved characters and percent signs. *)
Lemma occurrences_percent_encode c s :
  unreserved c = false → c ≠ "%"%char → occurrences c (percent_encode s) = 0.
Proof.
  intros Hc Hp. induction s as [|x s IH]; [done|]. cbn [percent_encode].
  destruct (unreserved x) eqn:Hx; cbn [occurrences]; rewrite IH.
  - rewrite bool_decide_false; [done|]. congruence.
  - rewrite !bool_decide_false; [done|..]; try congruence.
    + pose proof (hex_digit_unreserved (nat_of_ascii x mod 16)). congruence.
    + pose proof (hex_digit_unreserved (nat_of_ascii x / 16)). congruence.
Qed.

(** The template, literal by literal. *)
Lemma url_nil s : url [s] [] = s.
Proof. reflexivity. Qed.

Lemma concat_cons (a p : string) ps :
  String.concat "" (a :: p :: ps) = a +:+ String.concat "" (p :: ps).
Proof. reflexivity. Qed.

Lemma url_cons s strs v values :
  strs ≠ [] →
  url (s :: strs) (v :: values) = s +:+ encodeURIComponent v +:+ url strs values.
Proof.
  intros Hne. unfold url. cbn [fmap list_fmap]. rewrite imap_cons.
  assert (Hl : last (s :: strs) = last strs) by (by destruct strs).
  rewrite Hl.
  replace (default "undefined" ((s :: strs) !! 0)) with s by done.
  change (imap ((λ idx val, default "undefined" ((s :: strs) !! idx) +:+ val) ∘ S)
               (encodeURIComponent <$> values))
    with (imap (λ idx val, default "undefined" (strs !! idx) +:+ val)
               (encodeURIComponent <$> values)).
  destruct (imap _ (encodeURIComponent <$> values)) as [|p ps] eqn:E.
  - cbn [String.concat]. by rewrite !append_assoc.
  - by rewrite concat_cons, !append_assoc.
Qed.

(** X8.  A character that [encodeURIComponent] escapes, the percent sign
    apart, occurs in a path built by [url] as often as in the literals of the
    template: no interpolated value adds a slash, a question mark or a hash
    to a path. *)
Theorem url_keeps_reserved_characters c strs values :
  unreserved c = false →
  c ≠ "%"%char →
  length strs = S (length values) →
  occurrences c (url strs values) = sum_list (occurrences c <$> strs).
Proof.
  intros Hc Hp. revert strs. induction values as [|v values IH]; intros strs Hlen.
  - destruct strs as [|s [|]]; [done| |done]. rewrite url_nil. cbn. lia.
  - destruct strs as [|s strs]; [done|]. injection Hlen as Hlen.
    rewrite url_cons by (by destruct strs).
    rewrite !occurrences_app, IH by done. unfold encodeURIComponent.
    rewrite occurrences_percent_encode by done. cbn. lia.
Qed.

Lemma url_keeps_reserved_characters_witness :
  occurrences "/" (url ["/api/queues/"; "/"; ""]
                       [Some (VStr "/"); Some (VStr "a/b")]) = 4.
Proof.
  exact (url_keeps_reserved_characters "/" ["/api/queues/"; "/"; ""]
           [Some (VStr "/"); Some (VStr "a/b")] eq_refl ltac:(done) eq_refl).
Defined.

Lemma hex_digit_value n :
  n < 16 →
  (let m := nat_of_ascii (hex_digit n) in if m <? 58 then m - 48 else m - 55) = n.
Proof. intros H. do 16 (destruct n as [|n]; [reflexivity|]). lia. Qed.

Lemma hex_digit_inj n m : n < 16 → m < 16 → hex_digit n = hex_digit m → n = m.
Proof.
  intros Hn Hm H. rewrite <- (hex_digit_value n), <- (hex_digit_value m) by done.
  by rewrite H.
Qed.

Lemma percent_encode_inj s s' : percent_encode s = percent_encode s' → s = s'.
Proof.
  revert s'. induction s as [|c s IH]; intros [|c' s']; cbn [percent_encode].
  - done.
  - by destruct (unreserved c').
  - by destruct (unreserved c).
  - destruct (unreserved c) eqn:Hc, (unreserved c') eqn:Hc'.
    + intros [= -> H]. f_equal. by apply IH.
    + intros [= -> _]. done.
    + intros [= <- _]. done.
    + intros [= H1 H2 H]. f_equal; [|by apply IH].
      change (hex_digit (nat_of_ascii c / 16) = hex_digit (nat_of_ascii c' / 16)) in H1.
      change (hex_digit (nat_of_ascii c mod 16) = hex_digit (nat_of_ascii c' mod 16))
        in H2.
      pose proof (nat_ascii_bounded c). pose proof (nat_ascii_bounded c').
      apply hex_digit_inj in H1; [|apply Nat.Div0.div_lt_upper_bound; lia..].
      apply hex_digit_inj in H2; [|apply Nat.mod_upper_bound; lia..].
      rewrite <- (ascii_nat_embedding c), <- (ascii_nat_embedding c').
      f_equal. rewrite (Nat.div_mod_eq (nat_of_ascii c) 16).
      rewrite (Nat.div_mod_eq (nat_of_ascii c') 16). by rewrite H1, H2.
Qed.

Lemma append_inv_head (p a b : string) : p +:+ a = p +:+ b → a = b.
Proof.
  induction p as [|x p IH]; [done|]. rewrite !append_cons. intros [= H]. by apply IH.
Qed.

Lemma length_append (a b : string) :
  String.length (a +:+ b) = String.length a + String.length b.
Proof.
  induction a as [|x a IH]; [done|]. rewrite append_cons. simpl. by rewrite IH.
Qed.

Lemma append_inv_tail (a b s : string) : a +:+ s = b +:+ s → a = b.
Proof.
  revert b. induction a as [|x a IH]; intros [|y b]; rewrite ?append_cons.
  - done.
  - rewrite append_nil_l. intros H. apply (f_equal String.length) in H.
    simpl in H. rewrite length_append in H. lia.
  - rewrite append_nil_l. intros H. apply (f_equal String.length) in H.
    simpl in H. rewrite length_append in H. lia.
  - intros [= -> H]. f_equal. by apply IH.
Qed.

(** Where the first slash is, when the text before it has none. *)
Lemma append_slash_inv (a a' r r' : string) :
  occurrences "/" a = 0 → occurrences "/" a' = 0 →
  a +:+ String "/" r = a' +:+ String "/" r' → a = a' ∧ r = r'.
Proof.
  revert a'. induction a as [|x a IH]; intros [|y a']; rewrite ?append_cons;
    rewrite ?append_nil_l; cbn [occurrences].
  - by intros _ _ [= ->].
  - intros _ Hy [= <- _]. by rewrite bool_decide_true in Hy.
  - intros Hx _ [= -> _]. by rewrite bool_decide_true in Hx.
  - intros Hx Hy [= -> H]. destruct (IH a') as [-> ->]; [lia|lia|done|done].
Qed.

(** X9.  [url] keeps resources apart: for a template whose inner literals
    start with a slash, as those of the table all do, two paths are equal only
    if the interpolated values have the same string forms, one by one. *)
Theorem url_injective prefix inner suffix values values' :
  Forall (λ s, ∃ rest, s = String "/" rest) inner →
  length values = S (length inner) →
  length values' = S (length inner) →
  url (prefix :: inner ++ [suffix]) values = url (prefix :: inner ++ [suffix]) values' →
  js_string <$> values = js_string <$> values'.
Proof.
  intros Hinner. revert prefix values values'.
  induction Hinner as [|s inner [rest ->] _ IH]; intros prefix values values' Hl Hl' H.
  - destruct values as [|v [|]]; [done| |done].
    destruct values' as [|v' [|]]; [done| |done].
    cbn [app] in H. rewrite !url_cons, !url_nil in H by done.
    apply append_inv_head, append_inv_tail, percent_encode_inj in H.
    cbn [fmap list_fmap]. by rewrite H.
  - destruct values as [|v values]; [done|]. destruct values' as [|v' values']; [done|].
    injection Hl as Hl. injection Hl' as Hl'.
    destruct values as [|v1 values]; [done|].
    destruct values' as [|v1' values']; [done|].
    rewrite <- !app_comm_cons in H.
    rewrite (url_cons prefix), (url_cons prefix) in H by done.
    apply append_inv_head in H.
    rewrite (url_cons (String "/" rest)), (url_cons (String "/" rest)) in H
      by (by destruct inner).
    rewrite !append_cons in H.
    apply append_slash_inv in H as [Hv H];
      [|by apply occurrences_percent_encode..].
    apply percent_encode_inj in Hv.
    rewrite <- !url_cons in H by (by destruct inner).
    apply IH in H; [|done..].
    rewrite !fmap_cons. rewrite !fmap_cons in H. by rewrite Hv, H.
Qed.

Lemma url_injective_witness :
  url ["/api/queues/"; "/"; ""] [Some (VStr "a/b"); Some (VStr "c")]
  ≠ url ["/api/queues/"; "/"; ""] [Some (VStr "a"); Some (VStr "b/c")].
Proof.
  intros H.
  pose proof (url_injective "/api/queues/" ["/"] ""
                [Some (VStr "a/b"); Some (VStr "c")]
                [Some (VStr "a"); Some (VStr "b/c")]
                ltac:(repeat constructor; by eexists) eq_refl eq_refl H) as Hs.
  discriminate Hs.
Defined.

(** ** The table and the identity of a resource *)

Lemma insertAll_has_identity ig ty records s s' :
  Index.insertAll ig ty records s = Ok s' →
  Forall (λ r, has_identity ty r = true) records.
Proof.
  revert s. induction records as [|r rest IH]; intros s; simpl; [by constructor|].
  destruct (has_identity ty r) eqn:Hr; [|done]. intros H. constructor; [done|].
  by eapply IH.
Qed.

Lemma indexed_has_identity d b ig idx ty r :
  Index.fromDefinitions d b ig = Ok idx →
  r ∈ HashSet.values (Index.collection idx ty) →
  has_identity ty r = true.
Proof.
  intros Hidx Hr.
  pose proof (fromDefinitions_indexes _ _ _ _ ty Hidx) as (_ & _ & Hmem & _).
  apply (fromDefinitions_build _ _ _ _ ty) in Hidx.
  apply insertAll_has_identity in Hidx.
  rewrite Forall_forall in Hidx. apply Hidx, Hmem, Hr.
Qed.

Lemma has_identity_object ty r : has_identity ty r = true → ∃ fs, r = VObj fs.
Proof.
  intros H. destruct r as [| | | | |fs]; [..|by eexists];
    destruct ty; by vm_compute in H.
Qed.

(** The method and the path of a resource depend on its identity only,
    except for the deletion of a binding, whose path ends with the
    properties key. *)
Lemma identity_determines_call op ty f r1 r2 :
  C op ty = Handler f →
  (op = Deleted → ty ≠ Bindings) →
  identity ty r1 = identity ty r2 →
  f r1 = f r2.
Proof.
  intros Hf Hb Hid. unfold identity in Hid.
  destruct op, ty; try done; try (by destruct (Hb eq_refl));
    cbn in Hf; injection Hf as <-;
    cbn [identity_fields fmap list_fmap] in Hid; simplify_eq; congruence.
Qed.

Lemma resourceArg_pair p fs :
  after p = VObj fs → resourceArg (pair_object p) = after p.
Proof.
  intros Ha. unfold resourceArg, pair_object, obj, get. cbn [list_to_map foldr].
  rewrite lookup_insert_ne by done. rewrite lookup_insert_eq.
  unfold or_else. by rewrite Ha.
Qed.

Lemma changed_pair_inv beforeDef afterDef ignoreList l ty p :
  diffLocals beforeDef afterDef ignoreList = Ok l →
  p ∈ at_key (c_changed (l_collected l)) ty →
  before p ∈ HashSet.values (Index.collection (l_before l) ty)
  ∧ after p ∈ HashSet.values (Index.collection (l_after l) ty)
  ∧ identity ty (before p) = identity ty (after p).
Proof.
  intros Hl. destruct (diffLocals_closed _ _ _ _ ty Hl) as (_ & _ & Hc).
  rewrite (proj1 (proj2 (proj2 (classes_at _ ty)))), Hc. cbn [MapDiff.changed].
  intros (Ha & Hb & _)%elem_of_changed_of. by apply lookup_Some in Hb as [? ?].
Qed.

(** X10.  A changed pair reported by [diff] is sent as its after record, and
    to the method and path of its before record, for every operation of the
    table on its type except the deletion of a binding (whose path ends with
    the properties key, which is not part of the identity). *)
Theorem changed_resource_keeps_its_path beforeDef afterDef ignoreList l ty p :
  diffLocals beforeDef afterDef ignoreList = Ok l →
  p ∈ at_key (c_changed (l_collected l)) ty →
  resourceArg (pair_object p) = after p
  ∧ ∀ op f,
      C op ty = Handler f →
      (op = Deleted → ty ≠ Bindings) →
      f (after p) = f (before p)
      ∧ call op ty (pair_object p)
        = [Request (f (before p)).1 (f (before p)).2 (after p)].
Proof.
  intros Hl Hp.
  destruct (changed_pair_inv _ _ _ _ _ _ Hl Hp) as (Hb & Ha & Hid).
  pose proof Hl as (_ & Hafter & _)%diffLocals_inv.
  destruct (has_identity_object ty (after p)) as [fs Hfs];
    [by eapply indexed_has_identity|].
  pose proof (resourceArg_pair p fs Hfs) as Harg.
  split; [done|]. intros op f Hf Hop.
  assert (Hsame : f (after p) = f (before p))
    by (by eapply identity_determines_call).
  split; [done|]. unfold call. by rewrite Hf, Harg, Hsame.
Qed.

Lemma changed_resource_keeps_its_path_witness :
  call Deleted Exchanges (pair_object (Change (ex1 true) (ex1 false)))
  = [Request DELETE "/api/exchanges/%2F/ex1" (ex1 false)].
Proof.
  exact (proj2 (proj2 (changed_resource_keeps_its_path snapshot_before snapshot_after
                         None snapshot_locals Exchanges
                         (Change (ex1 true) (ex1 false))
                         ltac:(compute_done) ltac:(compute_done))
                      Deleted _ eq_refl ltac:(done))).
Defined.

Lemma elem_of_calls e op ty resources :
  e ∈ calls op ty resources ↔ ∃ r, r ∈ resources ∧ e ∈ call op ty r.
Proof.
  unfold calls. rewrite list_elem_of_bind.
  split; intros (r & ? & ?); by exists r.
Qed.

Lemma calls_no_warning op ty resources :
  Forall (λ e, is_warning e = false) (calls op ty resources).
Proof.
  apply Forall_forall. intros e (r & _ & He)%elem_of_calls.
  unfold call in He. destruct (C op ty); [|by apply elem_of_nil in He..].
  by apply list_elem_of_singleton in He as ->.
Qed.

Lemma batch_report_no_warning operation ty override skipped result :
  Forall (λ e, is_warning e = false)
         (batch_report operation ty override skipped result).
Proof. unfold batch_report. case_bool_decide; by repeat constructor. Qed.

Lemma batch_report_requests operation ty override skipped result :
  requests (batch_report operation ty override skipped result) = [].
Proof. unfold batch_report. by case_bool_decide. Qed.

Lemma calls_unsupported op ty resources :
  C op ty = NotAFunction → calls op ty resources = [].
Proof.
  intros HC. unfold calls. induction resources as [|r rs IH]; [done|].
  rewrite bind_cons, IH. unfold call. by rewrite HC.
Qed.

Lemma call_delete op ty r path body :
  Request DELETE path body ∈ call op ty r → op = Deleted.
Proof.
  unfold call. destruct op, ty; cbn; intros H;
    first [by apply elem_of_nil in H
          |apply list_elem_of_singleton in H; by try discriminate H].
Qed.

(** The batches of a run that is not stopped by the option conflict which
    send DELETE requests. *)
Lemma plan_deleting changes opts b :
  noDeletions opts && recreateChanged opts = false →
  b ∈ plan changes opts →
  default (b_operation b) (b_override b) = Deleted →
  noDeletions opts = false
  ∧ ((b_operation b = Deleted
      ∧ entries_of changes (b_operation b) (b_type b)
        = Some (at_key (Diff.deleted changes) (b_type b)))
     ∨ (recreateChanged opts = true ∧ b_operation b = Changed
        ∧ b_type b ∈ [Exchanges; Queues; Bindings]
        ∧ entries_of changes (b_operation b) (b_type b)
          = Some (pair_object <$> at_key (Diff.changed changes) (b_type b)))).
Proof.
  unfold plan, additions.
  destruct (noDeletions opts), (recreateChanged opts); cbn [andb negb app];
    [done|..]; intros _ Hb;
    repeat (apply elem_of_cons in Hb as [->|Hb]; [try done|]);
    try (by apply elem_of_nil in Hb);
    intros _; (split; [done|]); cbn [b_operation b_type];
    first [by left | right; split_and!; [done|done| |done]];
    repeat first [by left|right].
Qed.

Lemma elem_of_List_filter {A} (f : A → bool) (l : list A) x :
  x ∈ List.filter f l ↔ x ∈ l ∧ f x = true.
Proof. by rewrite (list_elem_of_In _ x), List.filter_In, <- list_elem_of_In. Qed.

Lemma elem_of_concat {A} (x : A) (ls : list (list A)) :
  x ∈ concat ls ↔ ∃ l, x ∈ l ∧ l ∈ ls.
Proof.
  induction ls as [|l0 ls IH]; cbn [concat].
  - split; [by intros ?%elem_of_nil|]. by intros (l & _ & ?%elem_of_nil).
  - rewrite elem_of_app, IH. split.
    + intros [?|(l & ? & ?)]; [exists l0; split; [done|left]|].
      exists l. split; [done|by right].
    + intros (l & Hx & [->|?]%elem_of_cons); [by left|right; by exists l].
Qed.

Lemma concat_take_prefix {A B} (f : A → list B) k (l : list A) :
  concat (f <$> take k l) `prefix_of` concat (f <$> l).
Proof.
  rewrite <- (take_drop k l) at 2. rewrite fmap_app, concat_app. by eexists.
Qed.




Lemma Warn_inj m m' : Warn m = Warn m' → m = m'.
Proof.
  intros H. exact (f_equal (λ e, match e with Warn m => m | _ => "" end) H).
Qed.



Section DeployMore.
Context {Server : Type}.
Context (request : client → Server → method → string → value → Server * settled).
Context (diffServer : client → Server → definitions → option (list value) → Diff.t).

Abbreviation M' := (M (Server := Server)).

(** A batch, event by event. *)
Lemma allSettled_dispatch_frame c op ty resources (w : @world Server) :
  ∃ w' result,
    allSettled (dispatch request c op ty <$> resources) w = (w', Ok result)
    ∧ length result = length resources
    ∧ trace w' = trace w ++ calls op ty resources
    ∧ ((∀ sv m path body, (request c sv m path body).1 = sv) →
       server w' = server w)
    ∧ (C op ty = NotAFunction →
       result = replicate (length resources) (RejectedWith (InvalidOperation op ty))
       ∧ server w' = server w).
Proof.
  revert w. induction resources as [|r rs IH]; intros w.
  - exists w, []. unfold calls. simpl. rewrite app_nil_r.
    by split_and!.
  - cbn [fmap list_fmap allSettled]. rewrite bind_run.
    assert (∃ w1 s, dispatch request c op ty r w = (w1, Ok s)
                    ∧ trace w1 = trace w ++ call op ty r
                    ∧ ((∀ sv m path body, (request c sv m path body).1 = sv) →
                       server w1 = server w)
                    ∧ (C op ty = NotAFunction →
                       s = RejectedWith (InvalidOperation op ty)
                       ∧ server w1 = server w))
      as (w1 & s & -> & Ht & Hsv & Hno).
    { unfold dispatch, call. destruct (C op ty) as [f| |].
      - destruct (f _) as [m u] eqn:Ef. unfold client_request.
        destruct (request c (server w) m u _) as [sv st] eqn:Er.
        eexists _, _. split_and!; [done|done| |done].
        intros Hfix. specialize (Hfix (server w) m u (resourceArg r)).
        by rewrite Er in Hfix.
      - eexists _, _. split_and!; [reflexivity|by rewrite app_nil_r|done|done].
      - eexists _, _. split_and!; [reflexivity|by rewrite app_nil_r|done|done]. }
    destruct (IH w1) as (w2 & result & Hrun & Hlen & Htr & Hsv2 & Hno2).
    rewrite bind_run, Hrun. exists w2, (s :: result).
    split_and!; [done|simpl; by rewrite Hlen| | |].
    + rewrite Htr, Ht. unfold calls. by rewrite bind_cons, app_assoc.
    + intros Hfix. by rewrite Hsv2, Hsv.
    + intros Hf. destruct (Hno Hf) as [-> Hs1]. destruct (Hno2 Hf) as [-> Hs2].
      split; [done|]. by rewrite Hs2, Hs1.
Qed.

Lemma run_batch_frame c changes b (w : @world Server) :
  ∃ events,
    trace (run_batch request c changes b w).1 = trace w ++ events
    ∧ requests events = batch_calls changes b
    ∧ Forall (λ e, is_warning e = false) events
    ∧ ((∀ sv m path body, (request c sv m path body).1 = sv) →
       server (run_batch request c changes b w).1 = server w).
Proof.
  unfold run_batch, batch_calls.
  destruct (entries_of changes (b_operation b) (b_type b)) as [entries|] eqn:He.
  - destruct (decide (entries = [])) as [->|Hne].
    + exists []. unfold deployResources. rewrite He. cbn.
      rewrite app_nil_r. split_and!; [done|done|constructor|done].
    + destruct (deployResources_run request c changes _ _ (b_override b) (b_filter b)
                  entries w He Hne) as (w1 & result & Hrun & ->).
      destruct (allSettled_dispatch_frame c (default (b_operation b) (b_override b))
                  (b_type b) (List.filter (kept (b_filter b)) entries) w)
        as (w1' & result' & Hrun' & _ & Htr & Hsv & _).
      rewrite Hrun in Hrun'. injection Hrun' as <- <-.
      eexists. cbn [fst snd trace server]. split_and!.
      * rewrite Htr, <- app_assoc. reflexivity.
      * by rewrite requests_app, requests_calls, batch_report_requests, app_nil_r.
      * apply Forall_app.
        split; [apply calls_no_warning|apply batch_report_no_warning].
      * done.
  - exists []. unfold deployResources. rewrite He. cbn. rewrite app_nil_r.
    split_and!; [done|done|constructor|done].
Qed.

Lemma run_plan_frame c changes bs (w : @world Server) :
  ∃ events,
    trace (run_plan request c changes bs w).1 = trace w ++ events
    ∧ Forall (λ e, is_warning e = false) events
    ∧ ((∀ sv m path body, (request c sv m path body).1 = sv) →
       server (run_plan request c changes bs w).1 = server w).
Proof.
  revert w. induction bs as [|b bs IH]; intros w.
  - exists []. cbn. rewrite app_nil_r. split_and!; [done|constructor|done].
  - cbn [run_plan]. rewrite bind_run.
    destruct (run_batch_frame c changes b w) as (ev1 & Ht1 & _ & Hw1 & Hs1).
    destruct (run_batch request c changes b w) as [w1 [[]|e1]]; cbn [fst snd] in *.
    + destruct (IH w1) as (ev2 & Ht2 & Hw2 & Hs2).
      exists (ev1 ++ ev2). split_and!.
      * by rewrite Ht2, Ht1, app_assoc.
      * by apply Forall_app.
      * intros Hfix. by rewrite Hs2, Hs1.
    + exists ev1. by split_and!.
Qed.


(** X12.  Every DELETE request of [deploy] is the deletion of a record
    reported deleted, or, with [recreateChanged] set, of a changed exchange,
    queue or binding; with [noDeletions] set there is none. *)
Theorem delete_requests_origin definitions opts w :
  let changes := diffServer (RabbitClient (dryRun opts)) (server w) definitions
                            (ignoreList opts) in
  ∃ issued,
    requests (trace (deploy request diffServer definitions opts w).1)
    = requests (trace w) ++ issued
    ∧ ∀ path body,
        Request DELETE path body ∈ issued →
        noDeletions opts = false
        ∧ ((∃ ty r, r ∈ at_key (Diff.deleted changes) ty
                    ∧ Request DELETE path body ∈ call Deleted ty r)
           ∨ (recreateChanged opts = true
              ∧ ∃ ty p, ty ∈ [Exchanges; Queues; Bindings]
                        ∧ p ∈ at_key (Diff.changed changes) ty
                        ∧ Request DELETE path body
                          ∈ call Deleted ty (pair_object p))).
Proof.
  intros changes.
  destruct (noDeletions opts && recreateChanged opts) eqn:Hconf.
  - exists []. rewrite deploy_as_plan, bind_run, preflight_run, Hconf.
    cbn [fst trace]. rewrite requests_app, requests_preflight_warnings.
    split; [done|]. intros path body H. by apply elem_of_nil in H.
  - destruct (deploy_requests request diffServer definitions opts w)
      as (k & _ & Hreq & _).
    fold changes in Hreq. eexists. split; [exact Hreq|].
    intros path body Hin.
    apply elem_of_concat in Hin as (cs & Hin & Hcs).
    apply list_elem_of_fmap in Hcs as (b & -> & Hb).
    apply elem_of_take in Hb as (i & Hb & _).
    apply list_elem_of_lookup_2 in Hb.
    unfold batch_calls in Hin.
    destruct (entries_of changes (b_operation b) (b_type b)) as [entries|] eqn:He;
      [|by apply elem_of_nil in Hin].
    apply elem_of_calls in Hin as (r & Hr & Hcall).
    apply elem_of_List_filter in Hr as [Hr _].
    pose proof (call_delete _ _ _ _ _ Hcall) as Hop.
    destruct (plan_deleting changes opts b Hconf Hb Hop)
      as [HND [[Hd He']|(HRC & Hc & Hty & He')]];
      (split; [done|]); rewrite He' in He; injection He as <-; rewrite Hop in Hcall.
    + left. by exists (b_type b), r.
    + right. split; [done|].
      apply list_elem_of_fmap in Hr as (p & -> & Hp). by exists (b_type b), p.
Qed.

(** X13.  The remote calls of [deploy] are those of its batches in program
    order, each batch complete before the next begins: a run that returns has
    issued the calls of every batch, a run that raises a prefix of them. *)
Theorem deploy_follows_the_plan definitions opts w :
  let changes := diffServer (RabbitClient (dryRun opts)) (server w) definitions
                            (ignoreList opts) in
  ∃ issued,
    requests (trace (deploy request diffServer definitions opts w).1)
    = requests (trace w) ++ issued
    ∧ issued `prefix_of` concat (batch_calls changes <$> plan changes opts)
    ∧ ((deploy request diffServer definitions opts w).2 = Ok tt →
       issued = concat (batch_calls changes <$> plan changes opts)).
Proof.
  intros changes.
  destruct (deploy_requests request diffServer definitions opts w)
    as (k & _ & Hreq & Hok).
  fold changes in Hreq, Hok. eexists. split; [exact Hreq|].
  split; [apply concat_take_prefix|].
  intros Hrun. rewrite (Hok Hrun). by rewrite firstn_all.
Qed.


(** X15.  With empty change sets [deploy] does nothing: it prints the dry-run
    warning if [dryRun] is set, no other line, issues no request, and returns,
    unless both [noDeletions] and [recreateChanged] are set. *)
Theorem nothing_to_deploy definitions opts w :
  diffServer (RabbitClient (dryRun opts)) (server w) definitions (ignoreList opts)
  = Diff.make makeChangeMap makeChangeMap makeChangeMap [] →
  deploy request diffServer definitions opts w
  = (World (server w) (trace w ++ if dryRun opts then [Warn dryRunWarning] else []),
     if noDeletions opts && recreateChanged opts then Throw OptionConflict
     else Ok tt).
Proof.
  intros Hnone. rewrite deploy_as_plan, bind_run, preflight_run, Hnone.
  by destruct opts as [[] [] [] il].
Qed.

(** X16.  A batch none of whose entries passes the filter issues no request
    and returns; it is silent only when it has no entry at all, and otherwise
    prints the number of skipped entries and a report of zero operations. *)
Theorem batch_with_nothing_eligible c changes operation ty override filterFn
    entries (w : @world Server) :
  entries_of changes operation ty = Some entries →
  Forall (λ r, kept filterFn r = false) entries →
  deployResources request c changes operation ty override filterFn w
  = (World (server w)
       (trace w ++ if bool_decide (entries = []) then []
                   else [Error (skippedNotice (length entries) operation ty);
                         Error (report operation override ty 0 0)]),
     Ok tt).
Proof.
  intros He Hnone. case_bool_decide as Hne.
  - unfold deployResources. rewrite He, bool_decide_true by done.
    destruct w. cbn. by rewrite app_nil_r.
  - destruct (deployResources_run request c changes operation ty override filterFn
                entries w He Hne) as (w1 & result & Hrun & ->).
    assert (Hel : List.filter (kept filterFn) entries = []).
    { clear -Hnone. induction Hnone as [|r rs Hr _ IH]; [done|].
      cbn [List.filter]. by rewrite Hr. }
    assert (Hsk : List.filter (λ r, negb (kept filterFn r)) entries = entries).
    { clear -Hnone. induction Hnone as [|r rs Hr _ IH]; [done|].
      cbn [List.filter]. by rewrite Hr, IH. }
    rewrite Hel in Hrun. injection Hrun as <- <-. rewrite Hsk.
    unfold batch_report, verdict. by rewrite bool_decide_true.
Qed.

(** X17.  For an operation and type for which the table has no function, a
    batch with an eligible entry issues no request, reports every eligible
    entry as failed and raises the invalid-operation error. *)
Theorem unsupported_operation_is_rejected c changes operation ty override filterFn
    entries (w : @world Server) :
  entries_of changes operation ty = Some entries →
  List.filter (kept filterFn) entries ≠ [] →
  C (default operation override) ty = NotAFunction →
  let eligible := List.filter (kept filterFn) entries in
  let skipped := List.filter (λ r, negb (kept filterFn r)) entries in
  let rejection := RejectedWith (InvalidOperation (default operation override) ty) in
  deployResources request c changes operation ty override filterFn w
  = (World (server w)
       (trace w ++ batch_report operation ty override skipped
                                (replicate (length eligible) rejection)),
     Throw (InvalidOperation (default operation override) ty))
  ∧ requests (trace (deployResources request c changes operation ty override
                                     filterFn w).1)
    = requests (trace w).
Proof.
  intros He Hel HC eligible skipped rejection. subst eligible skipped rejection.
  assert (Hne : entries ≠ []) by (by intros ->).
  destruct (deployResources_run request c changes operation ty override filterFn
              entries w He Hne) as (w1 & result & Hrun & Hdep).
  destruct (allSettled_dispatch_frame c (default operation override) ty
              (List.filter (kept filterFn) entries) w)
    as (w1' & result' & Hrun' & _ & Htr & _ & Hno).
  rewrite Hrun in Hrun'. injection Hrun' as <- <-.
  destruct (Hno HC) as [-> Hsv].
  rewrite calls_unsupported, app_nil_r in Htr by done.
  assert (Hv : verdict (replicate (length (List.filter (kept filterFn) entries))
                          (RejectedWith
                             (InvalidOperation (default operation override) ty)))
               = Throw (InvalidOperation (default operation override) ty)).
  { destruct (List.filter (kept filterFn) entries); [done|reflexivity]. }
  rewrite Hdep, Hsv, Htr, Hv. split; [done|].
  cbn [fst trace]. by rewrite requests_app, batch_report_requests, app_nil_r.
Qed.

End DeployMore.


Lemma nothing_to_deploy_witness :
  deploy always_fulfils diffLive live_root plain (World live_root [])
  = (World live_root [], Ok tt).
Proof.
  exact (nothing_to_deploy always_fulfils diffLive live_root plain
           (World live_root []) ltac:(compute_done)).
Defined.

Lemma batch_with_nothing_eligible_witness :
  deployResources always_fulfils (RabbitClient false)
    (diffLive (RabbitClient false) live_cascade desired_cascade None)
    Deleted Permissions None
    (Some (notInDeletedVhost
             (diffLive (RabbitClient false) live_cascade desired_cascade None)))
    (World live_cascade [])
  = (World live_cascade
       [Error "skipped 1 deleted permissions operations";
        Error "deleted 0 permissions"],
     Ok tt).
Proof.
  exact (batch_with_nothing_eligible always_fulfils (RabbitClient false)
           (diffLive (RabbitClient false) live_cascade desired_cascade None)
           Deleted Permissions None
           (Some (notInDeletedVhost
                    (diffLive (RabbitClient false) live_cascade desired_cascade None)))
           [permission "keep" "guest"] (World live_cascade [])
           ltac:(compute_done) ltac:(repeat constructor)).
Defined.

Lemma unsupported_operation_is_rejected_witness :
  deployResources always_fulfils (RabbitClient false)
    (diffLive (RabbitClient false) live_changed desired_changed None)
    Changed Queues None None (World live_changed [])
  = (World live_changed [Error "changed 0 queues, 1 failed"],
     Throw (InvalidOperation Changed Queues)).
Proof.
  exact (proj1 (unsupported_operation_is_rejected always_fulfils (RabbitClient false)
                  (diffLive (RabbitClient false) live_changed desired_changed None)
                  Changed Queues None None
                  [pair_object (Change q1 q1_durable)] (World live_changed [])
                  ltac:(compute_done) ltac:(done) eq_refl)).
Defined.

Section Closing.
Context {Server : Type}.
Context (request : client → Server → method → string → value → Server * settled).
Context (diffServer : client → Server → definitions → option (list value) → Diff.t).

Lemma preflight_no_closing_warning opts changes :
  Forall (λ e, ∀ n, e ≠ Warn (ignoredWarning n)) (preflight_warnings opts changes).
Proof.
  assert (H1 : ∀ n, Warn dryRunWarning ≠ Warn (ignoredWarning n)).
  { intros n H%Warn_inj. apply (f_equal (String.get 0)) in H.
    vm_compute in H. discriminate. }
  assert (H2 : ∀ n, Warn missingPermissionsWarning ≠ Warn (ignoredWarning n)).
  { intros n H%Warn_inj. apply (f_equal (String.get 0)) in H.
    vm_compute in H. discriminate. }
  assert (H3 : ∀ m n, Warn (ignoringWarning m) ≠ Warn (ignoredWarning n)).
  { intros m n H%Warn_inj. apply (f_equal (String.get 5)) in H.
    vm_compute in H. discriminate. }
  unfold preflight_warnings.
  destruct (dryRun opts),
    (bool_decide (vhosts (Diff.added changes) ≠ [])
     && hasAddedPermissionsForVhosts changes),
    (noDeletions opts && recreateChanged opts),
    (bool_decide (changedResourceCount changes ≠ 0) && negb (recreateChanged opts));
    cbn [app]; repeat constructor; done.
Qed.

Lemma deletedResourceCount_types changes :
  deletedResourceCount changes
  = sum_list ((λ ty, length (at_key (Diff.deleted changes) ty)) <$> all_types).
Proof. unfold deletedResourceCount, entries. cbn. lia. Qed.

(** X18.  With [noDeletions] set, a run that returns ends with the warning
    about ignored deletions when the change sets hold deleted records, the
    number in it being the number of all deleted records of all types; no
    such warning is printed otherwise or earlier. *)
Theorem no_deletions_closing_warning definitions opts w :
  let changes := diffServer (RabbitClient (dryRun opts)) (server w) definitions
                            (ignoreList opts) in
  let ignored := deletedResourceCount changes in
  noDeletions opts = true →
  (deploy request diffServer definitions opts w).2 = Ok tt →
  ignored = sum_list ((λ ty, length (at_key (Diff.deleted changes) ty)) <$> all_types)
  ∧ ∃ events,
      trace (deploy request diffServer definitions opts w).1
      = trace w ++ events
        ++ (if bool_decide (ignored ≠ 0) then [Warn (ignoredWarning ignored)] else [])
      ∧ Forall (λ e, ∀ n, e ≠ Warn (ignoredWarning n)) events.
Proof.
  intros changes ignored ND Hok. split; [apply deletedResourceCount_types|].
  revert Hok. rewrite deploy_as_plan, bind_run, preflight_run. fold changes.
  rewrite ND. destruct (recreateChanged opts) eqn:RC; cbn [andb]; [done|].
  rewrite bind_run.
  destruct (run_plan_frame request (RabbitClient (dryRun opts)) changes
              (plan changes opts)
              (World (server w) (trace w ++ preflight_warnings opts changes)))
    as (events & Ht & Hw & _).
  destruct (run_plan request _ changes (plan changes opts) _) as [w1 [[]|e]];
    cbn [fst snd trace] in *; [|done].
  intros _. exists (preflight_warnings opts changes ++ events).
  split.
  - unfold epilogue, when, emit, mret, M_ret. rewrite ND. cbn [negb].
    fold ignored. case_bool_decide; cbn [fst trace]; rewrite Ht;
      by rewrite <- ?app_assoc, ?app_nil_r.
  - apply Forall_app. split; [apply preflight_no_closing_warning|].
    eapply Forall_impl; [exact Hw|]. intros [] He n; done.
Qed.

End Closing.

Lemma no_deletions_closing_warning_witness :
  last (trace (deploy always_fulfils diffLive desired_cascade
                      (Options false true false None) (World live_cascade [])).1)
  = Some (Warn "Ignored 2 deleted resource(s). Remove --no-deletions to remove deleted resources from server.").
Proof.
  destruct (no_deletions_closing_warning always_fulfils diffLive desired_cascade
              (Options false true false None) (World live_cascade [])
              eq_refl ltac:(compute_done)) as (_ & events & Ht & _).
  rewrite Ht. cbn [trace app].
  rewrite bool_decide_true by (by vm_compute). rewrite last_snoc.
  by vm_compute.
Defined.

(** X19.  Once a vhost is deleted, the filter of the permission and user
    deletions skips every record that has a [vhost] field and keeps every
    record without one, whichever vhosts are deleted: no permission is
    deleted, every user is. *)
Theorem deletions_after_vhost_deletion changes :
  vhosts (Diff.deleted changes) ≠ [] →
  Forall (λ deleted, get deleted "vhost" = None ∧ truthy (Some deleted) = true)
         (vhosts (Diff.deleted changes)) →
  Forall (λ p, is_Some (get p "vhost")) (permissions (Diff.deleted changes)) →
  Forall (λ u, get u "vhost" = None) (users (Diff.deleted changes)) →
  batch_calls changes
    (Batch Deleted Permissions None (Some (notInDeletedVhost changes))) = []
  ∧ batch_calls changes
      (Batch Deleted Users None (Some (notInDeletedVhost changes)))
    = calls Deleted Users (users (Diff.deleted changes)).
Proof.
  intros Hne Hv Hp Hu. unfold batch_calls.
  cbn [b_operation b_type b_override b_filter entries_of at_key default].
  split.
  - replace (List.filter _ (permissions (Diff.deleted changes))) with (@nil value);
      [done|].
    induction Hp as [|p ps [v Hpv] _ IH]; [done|]. cbn [List.filter].
    rewrite notInDeletedVhost_filter, Hpv by done.
    by rewrite bool_decide_false.
  - f_equal. induction Hu as [|u us Huv _ IH]; [done|]. cbn [List.filter].
    rewrite notInDeletedVhost_filter, Huv by done.
    rewrite bool_decide_true by done. by rewrite IH.
Qed.

Lemma deletions_after_vhost_deletion_witness :
  batch_calls (diffLive (RabbitClient false) live_cascade desired_cascade None)
    (Batch Deleted Permissions None
       (Some (notInDeletedVhost
                (diffLive (RabbitClient false) live_cascade desired_cascade None))))
  = [].
Proof.
  refine (proj1 (deletions_after_vhost_deletion
                   (diffLive (RabbitClient false) live_cascade desired_cascade None)
                   _ _ _ _)).
  - by vm_compute.
  - vm_compute. by repeat constructor.
  - vm_compute. repeat constructor. by eexists.
  - vm_compute. constructor.
Defined.

(** * Properties of the command line *)

(** ** Logged objects *)

Lemma fromEntries_lookup kvs k :
  NoDup kvs.*1 →
  get (fromEntries kvs) k = (list_to_map kvs : gmap string value) !! k.
Proof.
  unfold fromEntries, get.
  induction kvs as [|[k' v'] kvs IH] using rev_ind; intros Hnd; [done|].
  rewrite foldl_app. cbn [foldl fst snd].
  rewrite fmap_app in Hnd. pose proof Hnd as (Hl & Hk & _)%NoDup_app.
  destruct (decide (k = k')) as [->|Hne].
  - rewrite lookup_insert_eq. symmetry.
    apply elem_of_list_to_map_1; [by rewrite fmap_app|].
    apply elem_of_app. right. left.
  - rewrite lookup_insert_ne by done. rewrite IH by done.
    destruct (list_to_map kvs !! k) as [v|] eqn:E; symmetry.
    + apply elem_of_list_to_map_1; [by rewrite fmap_app|].
      apply elem_of_app. left. by apply elem_of_list_to_map_2.
    + apply not_elem_of_list_to_map_1. rewrite fmap_app, elem_of_app.
      intros [Hin|Hin].
      * by apply not_elem_of_list_to_map_2 in E.
      * apply list_elem_of_singleton in Hin. done.
Qed.

Lemma shaken_keys summary resources :
  (shaken summary resources).*1 `sublist_of` resources.*1.
Proof.
  unfold shaken. induction resources as [|[key changes] rest IH]; [done|].
  cbn [List.filter]. case_bool_decide; csimpl; by constructor.
Qed.

Lemma elem_of_shaken summary resources key v :
  (key, v) ∈ shaken summary resources
  ↔ ∃ changes, (key, changes) ∈ resources ∧ changes ≠ []
               ∧ v = shown summary changes.
Proof.
  unfold shaken. rewrite list_elem_of_fmap. split.
  - intros ([key' changes] & [= -> ->] & Hin).
    apply elem_of_List_filter in Hin as [Hin Hne].
    apply bool_decide_eq_true in Hne. by exists changes.
  - intros (changes & Hin & Hne & ->). exists (key, changes). split; [done|].
    apply elem_of_List_filter. split; [done|]. by apply bool_decide_eq_true.
Qed.

Lemma type_name_inj ty ty' : type_name ty = type_name ty' → ty = ty'.
Proof. by destruct ty, ty'. Qed.

Lemma elem_of_named_entries m ty changes :
  (type_name ty, changes) ∈ named_entries m ↔ changes = at_key m ty.
Proof.
  unfold named_entries, entries. rewrite <- list_fmap_compose, list_elem_of_fmap.
  split.
  - intros (ty' & [= Hty ->] & _). by apply type_name_inj in Hty as <-.
  - intros ->. exists ty. split; [done|]. destruct ty; compute_done.
Qed.

Lemma NoDup_type_names : NoDup (type_name <$> all_types).
Proof. compute_done. Qed.

(** What is listed for a resource type under one operation. *)
Lemma shaken_lookup summary resources key :
  NoDup resources.*1 →
  get (fromEntries (shaken summary resources)) key
  = changes ← (list_to_map resources : gmap string (list value)) !! key;
    if bool_decide (changes ≠ []) then Some (shown summary changes) else None.
Proof.
  intros Hnd.
  assert (Hnd' : NoDup (shaken summary resources).*1)
    by (eapply sublist_NoDup; [exact Hnd|apply shaken_keys]).
  rewrite fromEntries_lookup by done.
  destruct (list_to_map resources !! key) as [changes|] eqn:E; cbn.
  - apply elem_of_list_to_map_2 in E. case_bool_decide as Hne.
    + apply elem_of_list_to_map_1; [done|]. apply elem_of_shaken. by exists changes.
    + apply not_elem_of_list_to_map_1. intros Hin.
      apply list_elem_of_fmap in Hin as ([k v] & -> & Hin).
      apply elem_of_shaken in Hin as (changes' & Hin & Hne' & _).
      cbn [fst] in *.
      assert (changes' = changes); [|by subst].
      apply (elem_of_list_to_map_1 _ _ _ Hnd) in Hin, E. congruence.
  - apply not_elem_of_list_to_map_2 in E.
    apply not_elem_of_list_to_map_1. intros Hin. apply E.
    eapply elem_of_sublist; [exact Hin|apply shaken_keys].
Qed.

Lemma shake_lookup summary result op :
  get (shake summary result) (operation_name op)
  = let shaken := shaken summary (resources_of result op) in
    if bool_decide (shaken ≠ []) then Some (fromEntries shaken) else None.
Proof.
  unfold shake, result_entries. cbn [foldl].
  destruct op; cbn [resources_of operation_name];
    generalize (shaken summary (named_entries (Diff.added result)));
    generalize (shaken summary (named_entries (Diff.deleted result)));
    generalize (shaken summary (named_entries (pairs (Diff.changed result))));
    generalize (shaken summary [("bindings", Diff.implicitlyAffected result)]);
    intros [|] [|] [|] [|]; reflexivity.
Qed.

Lemma at_key_pairs m ty : at_key (pairs m) ty = pair_object <$> at_key m ty.
Proof. by destruct ty. Qed.

Lemma named_entries_lookup m ty :
  (list_to_map (named_entries m) : gmap string (list value)) !! type_name ty
  = Some (at_key m ty).
Proof.
  apply elem_of_list_to_map_1; [apply NoDup_type_names|].
  by apply elem_of_named_entries.
Qed.

(** X20.  What [commands.diff] logs without [--json] lists a resource type
    under an operation exactly when the diff has changes of that operation
    and type, with those changes or, under [--summary], their number; an
    operation without changes is left out (it is never shown as an empty
    object). *)
Theorem commands_diff_lists_what_changed summary result op ty :
  listed (shake summary result) (operation_name op) (type_name ty)
  = match entries_of result op ty with
    | Some (r :: rs) => Some (shown summary (r :: rs))
    | _ => None
    end
  ∧ get (shake summary result) (operation_name op) ≠ Some (fromEntries []).
Proof.
  unfold listed. rewrite shake_lookup. cbn zeta. split.
  - transitivity (get (fromEntries (shaken summary (resources_of result op)))
                      (type_name ty)).
    { case_bool_decide as Hs; [done|]. by rewrite Hs. }
    destruct op; cbn [resources_of entries_of].
    + rewrite shaken_lookup, named_entries_lookup by apply NoDup_type_names.
      cbn. by destruct (at_key _ ty).
    + rewrite shaken_lookup, named_entries_lookup by apply NoDup_type_names.
      cbn. by destruct (at_key _ ty).
    + rewrite shaken_lookup, named_entries_lookup by apply NoDup_type_names.
      rewrite at_key_pairs. cbn. by destruct (at_key _ ty).
    + rewrite shaken_lookup by (by apply NoDup_singleton).
      destruct ty; try done. cbn. by destruct (Diff.implicitlyAffected result).
  - case_bool_decide as Hs; [|done]. intros [= H].
    destruct (shaken summary (resources_of result op)) as [|[k v] rest _]
      using rev_ind; [done|].
    unfold fromEntries in H. rewrite foldl_app in H. cbn in H.
    by apply insert_non_empty in H.
Qed.

(** A snapshot diffed against itself has no change. *)
Lemma diff_self X ignoreList l :
  diffLocals X X ignoreList = Ok l →
  diff X X ignoreList = Ok (Diff.make makeChangeMap makeChangeMap makeChangeMap []).
Proof.
  intros Hl.
  assert (Hty : ∀ ty, classes (l_collected l) ty
    = MapDiff.make [] [] [] (HashSet.values (Index.collection (l_after l) ty))).
  { intros ty. destruct (diffLocals_classes _ _ _ _ ty Hl) as (_ & HA & ->).
    pose proof Hl as (Hb & Ha & _)%diffLocals_inv.
    rewrite Hb in Ha. injection Ha as ->.
    by apply diffMapsConsuming_self. }
  rewrite (diff_of_locals _ _ _ _ Hl), (implicitlyAffected_of_locals _ _ _ _ Hl).
  assert (Hc : c_changed (l_collected l) = makeChangeMap).
  { apply changeMap_ext. intros ty.
    rewrite (proj1 (proj2 (proj2 (classes_at _ ty)))), Hty. by destruct ty. }
  rewrite Hc. cbn [exchanges queues makeChangeMap].
  rewrite filter_implicitlyAffected_by_nothing. do 2 f_equal.
  - apply changeMap_ext. intros ty.
    rewrite (proj1 (classes_at _ ty)), Hty. by destruct ty.
  - apply changeMap_ext. intros ty.
    rewrite (proj1 (proj2 (classes_at _ ty))), Hty. by destruct ty.
Qed.

(** X21.  [commands.diff] on twice the same definitions, when [diff]
    returns: under [--json] it logs the text of the result in which every
    sequence of every operation is empty; otherwise it logs the empty object,
    with or without [--summary]. *)
Theorem commands_diff_of_a_file_with_itself json summary X l :
  diffLocals X X None = Ok l →
  commands_diff json summary X X
  = Ok (if json
        then result_object (Diff.make makeChangeMap makeChangeMap makeChangeMap [])
        else fromEntries []).
Proof.
  intros Hl. unfold commands_diff. rewrite (diff_self _ _ _ Hl).
  by destruct json, summary.
Qed.

Lemma commands_diff_of_a_file_with_itself_witness :
  commands_diff true false snapshot_before snapshot_before
  = Ok (obj [("added", obj [("vhosts", VArr []); ("queues", VArr []);
                            ("exchanges", VArr []); ("bindings", VArr []);
                            ("users", VArr []); ("permissions", VArr []);
                            ("topic_permissions", VArr [])]);
             ("deleted", obj [("vhosts", VArr []); ("queues", VArr []);
                              ("exchanges", VArr []); ("bindings", VArr []);
                              ("users", VArr []); ("permissions", VArr []);
                              ("topic_permissions", VArr [])]);
             ("changed", obj [("vhosts", VArr []); ("queues", VArr []);
                              ("exchanges", VArr []); ("bindings", VArr []);
                              ("users", VArr []); ("permissions", VArr []);
                              ("topic_permissions", VArr [])]);
             ("implicitlyAffected", obj [("bindings", VArr [])])]).
Proof.
  rewrite (commands_diff_of_a_file_with_itself true false snapshot_before
             snapshot_before_locals ltac:(compute_done)).
  compute_done.
Defined.
